(** * Cynix: token-gated access control, rate limiting and cached data access

    A shallow embedding of the request path of the Cynix service:

    - [Token]      : [src/blockchain/token.py]   (class [CynixToken])
    - [Middleware] : [src/api/middleware.py]     ([RateLimiter], [verify_api_key],
                                                  [RequestLogger], [get_api_usage])
    - [DataAccess] : [src/services/data_access.py] (class [DataAccessService])
    - [Agents]     : [src/agents/base.py]        ([BaseAgent.process_data])
    - [Routes]     : [src/api/routes.py]         ([get_data], the analyzer
                                                  endpoints, [webhook_handler])
    - [Telegram]   : [src/services/telegram.py]  (class [CynixTelegramBot])

    Python integers are unbounded, hence [Z].  Dictionaries with string keys
    are [gmap string _].  Every [await] is a sequential call: one request is
    followed at a time, and the shared Redis store is passed explicitly. *)

From Stdlib Require Import ZArith Lia Strings.Byte Strings.Ascii.
From stdpp Require Import base strings gmap list pretty.

Local Open Scope Z_scope.

(** ** Python values, exceptions and results *)

#[local] Set Warnings "-register-all".

(** JSON-serialisable values, as they travel through payloads and claims. *)
Inductive Json :=
| JNull
| JBool (b : bool)
| JInt (n : Z)
| JStr (s : string)
| JList (l : list Json)
| JObj (kvs : list (string * Json)).

(** A Python [Dict[str, Any]]. *)
Abbreviation Dict := (gmap string Json).

(** The exception classes that occur on the modelled paths.  The three JWT
    errors below [InvalidTokenError] are its subclasses in PyJWT. *)
Inductive ExcClass :=
| KeyError
| ValueError
| AttributeError
| InvalidTokenError
| DecodeError
| InvalidSignatureError
| ExpiredSignatureError
| OtherException (name : string).

(** A raised exception: FastAPI's [HTTPException(status_code, detail)], or
    any other exception, given by its class and by [str(e)]. *)
Inductive Exc :=
| HTTPException (status_code : Z) (detail : Json)
| PyError (cls : ExcClass) (msg : string).

(** The outcome of a call that may raise. *)
Inductive Result (A : Type) :=
| Ok (a : A)
| Raise (e : Exc).
Arguments Ok {A} a.
Arguments Raise {A} e.

(** [str(e)] of an [HTTPException] is fixed by the installed Starlette
    release (older ones give the empty string, newer ones
    ["<status>: <detail>"]); it is left open. *)
Class StrHTTPException := str_http_exception : Z → Json → string.

Definition exc_str `{StrHTTPException} (e : Exc) : string :=
  match e with
  | HTTPException status detail => str_http_exception status detail
  | PyError _ msg => msg
  end.

(** The [NameError] raised when a name that the module does not bind is
    evaluated. *)
Definition name_error (name : string) : Exc :=
  PyError (OtherException "NameError") ("name '" +:+ name +:+ "' is not defined").

(** [isinstance(e, jwt.InvalidTokenError)] *)
Definition is_InvalidTokenError (e : Exc) : bool :=
  match e with
  | PyError InvalidTokenError _ | PyError DecodeError _
  | PyError InvalidSignatureError _ | PyError ExpiredSignatureError _ => true
  | _ => false
  end.

(** [{"error": msg}] *)
Definition error_dict (msg : string) : Dict := {[ "error" := JStr msg ]}.

(** Whether a string contains a colon, the separator of the Redis keys. *)
Fixpoint has_colon (s : string) : bool :=
  match s with
  | EmptyString => false
  | String c s => bool_decide (c = ":"%char) || has_colon s
  end.

(** Python slicing [l[lo:hi]] for [0 <= lo <= hi]: out-of-range bounds are
    clamped, never an error. *)
Definition slice {A} (lo hi : nat) (l : list A) : list A := take (hi - lo) (drop lo l).

(** [int.from_bytes(bs, "little")] *)
Fixpoint int_from_bytes_little (bs : list Byte.byte) : Z :=
  match bs with
  | [] => 0
  | b :: rest => Z.of_N (Byte.to_N b) + 256 * int_from_bytes_little rest
  end.

(** *** Positional reading of a byte string, to state the layout against *)

(** The value of the byte at position [i], 0 past the end of the data. *)
Definition byte_at (data : list Byte.byte) (i : nat) : Z :=
  match data !! i with
  | Some b => Z.of_N (Byte.to_N b)
  | None => 0
  end.

(** The little-endian number in the eight bytes from [off] on. *)
Definition le_field (data : list Byte.byte) (off : nat) : Z :=
  foldr (λ i acc, byte_at data (off + i) * 256 ^ Z.of_nat i + acc) 0 (seq 0 8).

(** [n.to_bytes(length, "little")] for [0 <= n < 256 ^ length] (outside of
    that range Python raises [OverflowError]). *)
Fixpoint int_to_bytes_little (length : nat) (n : Z) : list Byte.byte :=
  match length with
  | O => []
  | S length =>
    default Byte.x00 (Byte.of_N (Z.to_N (n `mod` 256)))
      :: int_to_bytes_little length (n `div` 256)
  end.

(** ** [src/blockchain/token.py] *)
Module Token.

Definition PublicKey := string.

(** The [solana] library and the RPC endpoint behind [AsyncClient], as far
    as [CynixToken] uses them.  A token account is represented by the
    outcome of
    [int(account.account.data.parsed["info"]["tokenAmount"]["amount"])]. *)
Record Ledger := {
  PublicKey_new : string → Result PublicKey;
  pubkey_bytes : PublicKey → list Byte.byte;
  find_program_address : list (list Byte.byte) → PublicKey → PublicKey * Z;
  get_token_accounts_by_owner : PublicKey → PublicKey → Result (list (Result Z));
  get_account_info : PublicKey → Result (option (list Byte.byte))
}.

Record CynixToken := {
  client : Ledger;
  token_mint : PublicKey;
  admin : PublicKey;
  staking_program : PublicKey
}.

Record StakingInfo := {
  amount : Z;
  start_time : Z;
  last_claim : Z
}.

Record AccessLevels := {
  alpha_access : bool;
  raw_data_access : bool;
  api_access : bool;
  governance_access : bool
}.

Record AccessInfo := {
  total_tokens : Z;
  staked_amount : Z;
  access_levels : AccessLevels
}.

(** What [check_access_level] returns: the access dictionary, or
    [{"error": str(e)}]. *)
Inductive AccessResult :=
| AccessOk (info : AccessInfo)
| AccessError (msg : string).

Definition staking_seed : list Byte.byte :=
  ["s"; "t"; "a"; "k"; "i"; "n"; "g"]%byte.

Definition _derive_staking_address (self : CynixToken) (wallet : PublicKey) : PublicKey :=
  let seeds := [pubkey_bytes (client self) (token_mint self);
                pubkey_bytes (client self) wallet;
                staking_seed] in
  (find_program_address (client self) seeds (staking_program self)).1.

Definition _parse_staking_data (data : list Byte.byte) : StakingInfo :=
  {| amount := int_from_bytes_little (slice 0 8 data);
     start_time := int_from_bytes_little (slice 8 16 data);
     last_claim := int_from_bytes_little (slice 16 24 data) |}.

(** Any exception, and an absent account, give [None]. *)
Definition _get_staking_info (self : CynixToken) (wallet : PublicKey) : option StakingInfo :=
  match get_account_info (client self) (_derive_staking_address self wallet) with
  | Ok (Some data) => Some (_parse_staking_data data)
  | Ok None => None
  | Raise _ => None
  end.

(** The [for account in token_accounts.value] loop. *)
Fixpoint sum_balances (accounts : list (Result Z)) (total_balance : Z) : Result Z :=
  match accounts with
  | [] => Ok total_balance
  | Ok balance :: rest => sum_balances rest (total_balance + balance)
  | Raise e :: _ => Raise e
  end.

(** The ["access_levels"] entry of the returned dictionary. *)
Definition levels (total_tokens staked_amount : Z) : AccessLevels :=
  {| alpha_access := total_tokens >=? 1000;
     raw_data_access := staked_amount >=? 5000;
     api_access := total_tokens >=? 10000;
     governance_access := total_tokens >=? 50000 |}.

Section check.
Context `{StrHTTPException}.

Definition check_access_level (self : CynixToken) (wallet_address : string) : AccessResult :=
  match PublicKey_new (client self) wallet_address with
  | Raise e => AccessError (exc_str e)
  | Ok pubkey =>
    match get_token_accounts_by_owner (client self) pubkey (token_mint self) with
    | Raise e => AccessError (exc_str e)
    | Ok token_accounts =>
      match sum_balances token_accounts 0 with
      | Raise e => AccessError (exc_str e)
      | Ok total_balance =>
        let staked_amount :=
          match _get_staking_info self pubkey with
          | Some staking_info => amount staking_info
          | None => 0
          end in
        let total_tokens := total_balance + staked_amount in
        AccessOk {| total_tokens := total_tokens;
                    staked_amount := staked_amount;
                    access_levels := levels total_tokens staked_amount |}
      end
    end
  end.
End check.

(** The four capability tiers, and the flag of each. *)
Inductive Tier := Alpha | RawData | Api | Governance.

Definition granted (t : Tier) (a : AccessLevels) : bool :=
  match t with
  | Alpha => alpha_access a
  | RawData => raw_data_access a
  | Api => api_access a
  | Governance => governance_access a
  end.

End Token.

(** ** The Redis store

    Keys hold a value and an optional expiry, an absolute time in seconds. A
    key is gone for every command once the clock has passed its expiry; at
    the instant of the expiry itself it is still there.  The store and the
    service read the same clock. *)
Module Redis.

Definition live (now : Z) (expire_at : option Z) : bool :=
  match expire_at with
  | None => true
  | Some t => now <=? t
  end.

Section commands.
Context {V : Type}.
Implicit Types s : gmap string (V * option Z).

(** [GET key] *)
Definition get (now : Z) (key : string) s : option V :=
  match s !! key with
  | Some (v, e) => if live now e then Some v else None
  | None => None
  end.

(** [SETEX key seconds value] *)
Definition setex (now : Z) (key : string) (seconds : Z) (v : V) s : gmap string (V * option Z) :=
  <[key := (v, Some (now + seconds))]> s.

(** [EXPIRE key seconds] *)
Definition expire (now : Z) (key : string) (seconds : Z) s : gmap string (V * option Z) :=
  match s !! key with
  | Some (v, e) => if live now e then <[key := (v, Some (now + seconds))]> s else s
  | None => s
  end.
End commands.

(** [INCR key]: a missing (or expired) key counts from 0 and gets no
    expiry; a live key keeps its expiry. *)
Definition incr (now : Z) (key : string) (s : gmap string (Z * option Z)) :
    Z * gmap string (Z * option Z) :=
  match s !! key with
  | Some (n, e) =>
    if live now e then (n + 1, <[key := (n + 1, e)]> s)
    else (1, <[key := (1, None)]> s)
  | None => (1, <[key := (1, None)]> s)
  end.

(** [LPUSH key value] *)
Definition lpush {A} (key : string) (x : A) (s : gmap string (list A)) : gmap string (list A) :=
  <[key := x :: default [] (s !! key)]> s.

(** [LTRIM key start stop], for indices counted from the head
    ([0 <= start <= stop]): the elements [start .. stop] are kept. *)
Definition ltrim {A} (key : string) (start stop : Z) (s : gmap string (list A)) :
    gmap string (list A) :=
  match s !! key with
  | Some l => <[key := take (Z.to_nat (stop - start + 1)) (drop (Z.to_nat start) l)]> s
  | None => s
  end.

End Redis.

(** ** [src/api/middleware.py] *)
Module Middleware.

Record Request := {
  request_headers : gmap string string;
  client_host : string
}.

Record Response := {
  status_code : Z;
  response_headers : gmap string string;
  body : Json
}.

(** *** [RateLimiter] *)

Definition rate_limit : Z := 100.
Definition window : Z := 60.

(** [request.headers.get("X-API-Key", request.client.host)] *)
Definition client_id (request : Request) : string :=
  default (client_host request) (request_headers request !! "X-API-Key").

(** [f"ratelimit:{client_id}:{current // self.window}"] *)
Definition window_key (client_id : string) (current : Z) : string :=
  "ratelimit:" +:+ client_id +:+ ":" +:+ pretty (current `div` window).

(** The three assignments to [response.headers]. *)
Definition add_rate_headers (request_count current : Z) (response : Response) : Response :=
  {| status_code := status_code response;
     response_headers :=
       <["X-RateLimit-Reset" := pretty (current `div` window * window + window)]>
       (<["X-RateLimit-Remaining" := pretty (Z.max 0 (rate_limit - request_count))]>
       (<["X-RateLimit-Limit" := pretty rate_limit]> (response_headers response)));
     body := body response |}.

Definition rate_limit_exceeded : Exc := HTTPException 429 (JStr "Rate limit exceeded").

(** [RateLimiter.dispatch]; [current] is [int(time.time())], [call_next]
    the rest of the application. *)
Definition dispatch (call_next : Request → Result Response) (request : Request)
    (current : Z) (redis : gmap string (Z * option Z)) :
    Result Response * gmap string (Z * option Z) :=
  let window_key := window_key (client_id request) current in
  let '(request_count, redis) := Redis.incr current window_key redis in
  let redis :=
    if decide (request_count = 1) then Redis.expire current window_key window redis
    else redis in
  if decide (request_count > rate_limit) then (Raise rate_limit_exceeded, redis)
  else
    match call_next request with
    | Ok response => (Ok (add_rate_headers request_count current response), redis)
    | Raise e => (Raise e, redis)
    end.

(** The value [INCR] returns to [dispatch] for this request. *)
Definition request_count (request : Request) (current : Z)
    (redis : gmap string (Z * option Z)) : Z :=
  (Redis.incr current (window_key (client_id request) current) redis).1.

(** The request is handed to the application, whose answer comes back
    with the rate-limit headers set. *)
Definition admits (request : Request) (current : Z) (redis : gmap string (Z * option Z)) : Prop :=
  ∀ call_next,
    (dispatch call_next request current redis).1 =
    match call_next request with
    | Ok response => Ok (add_rate_headers (request_count request current redis) current response)
    | Raise e => Raise e
    end.

(** The request is turned away with 429 whatever the application is. *)
Definition rejects (request : Request) (current : Z) (redis : gmap string (Z * option Z)) : Prop :=
  ∀ call_next, (dispatch call_next request current redis).1 = Raise rate_limit_exceeded.

(** A run of requests, each with the clock reading at its arrival. *)
Fixpoint serve (call_next : Request → Result Response) (requests : list (Request * Z))
    (redis : gmap string (Z * option Z)) :
    list (Result Response) * gmap string (Z * option Z) :=
  match requests with
  | [] => ([], redis)
  | (request, current) :: rest =>
    let '(outcome, redis) := dispatch call_next request current redis in
    let '(outcomes, redis) := serve call_next rest redis in
    (outcome :: outcomes, redis)
  end.

(** The state of one client's window after [n] of its requests: no key
    before the first, then the count with an expiry past the window's end. *)
Definition window_state (key : string) (w n : Z) (redis : gmap string (Z * option Z)) : Prop :=
  if decide (n = 0) then redis !! key = None
  else ∃ e, redis !! key = Some (n, Some e) ∧ window * (w + 1) ≤ e.

(** Every rate-limit counter in the store carries an expiry, less than two
    windows after the start of its own window. *)
Definition expiry_bounded (redis : gmap string (Z * option Z)) : Prop :=
  ∀ cid t n oe,
    redis !! window_key cid t = Some (n, oe) →
    ∃ e, oe = Some e ∧ e < (t `div` window + 2) * window.

(** The headers a client sees on an outcome.  The [HTTPException] of
    [dispatch] is raised without its [headers] argument. *)
Definition outcome_headers (outcome : Result Response) : gmap string string :=
  match outcome with
  | Ok response => response_headers response
  | Raise _ => ∅
  end.

(** *** [verify_api_key] *)

(** The claims of a token's payload that the code reads.  [exp] is a
    NumericDate (integer seconds); the token carries no [nbf], [iat],
    [aud] or [iss] claim. *)
Record Payload := {
  exp : option Z;
  wallet_address : option Json
}.

(** A presented API key, as [jwt.decode] sees it: whether it parses as a
    JWT with an HS256 header, whether its signature verifies under the
    secret passed to [decode], and its payload. *)
Record ApiKey := {
  well_formed : bool;
  signature_valid : bool;
  payload : Payload
}.

(** [jwt.decode(api_key, secret, algorithms=["HS256"])] of PyJWT with its
    default options: the signature is verified, then the [exp] claim,
    when present, against the current UTC time ([exp <= now] is expired in
    PyJWT 2, [exp < now] in PyJWT 1).  Every error it raises here is a
    subclass of [InvalidTokenError]. *)
Definition jwt_decode (now : Z) (api_key : ApiKey) : Result Payload :=
  if negb (well_formed api_key) then
    Raise (PyError DecodeError "Not enough segments")
  else if negb (signature_valid api_key) then
    Raise (PyError InvalidSignatureError "Signature verification failed")
  else
    match exp (payload api_key) with
    | Some e =>
      if e <=? now then Raise (PyError ExpiredSignatureError "Signature has expired")
      else Ok (payload api_key)
    | None => Ok (payload api_key)
    end.

(** The clock: UTC time in seconds, and the offset of the server's local
    time zone from UTC in seconds ([datetime.fromtimestamp] gives local
    time, [datetime.utcnow] UTC, both naive).  One verification reads the
    same instant in [jwt.decode] and in [datetime.utcnow].  The comparison
    of the two datetimes is that of their seconds as long as [exp] is a
    time [datetime] can hold, up to [max_timestamp]; beyond it
    [fromtimestamp] raises. *)
Record Clock := {
  utc_now : Z;
  utc_offset : Z
}.

(** 9999-12-31T23:59:59, the last second of [datetime]. *)
Definition max_timestamp : Z := 253402300799.

Definition verify_api_key (clock : Clock) (api_key : ApiKey) : Result Json :=
  match jwt_decode (utc_now clock) api_key with
  | Raise e =>
    if is_InvalidTokenError e then Raise (HTTPException 401 (JStr "Invalid API key"))
    else Raise e
  | Ok payload =>
    match exp payload with
    | None => Raise (PyError KeyError "'exp'")
    | Some e =>
      if e + utc_offset clock <? utc_now clock then
        Raise (HTTPException 401 (JStr "API key expired"))
      else
        match wallet_address payload with
        | Some w => Ok w
        | None => Raise (PyError KeyError "'wallet_address'")
        end
    end
  end.

(** *** [RequestLogger] *)

(** An entry of the ["api:request_logs"] list.  Times are clock readings in
    seconds; [user_agent] is [None] without the header. *)
Record RequestLogEntry := {
  entry_timestamp : Z;
  entry_method : string;
  entry_path : string;
  entry_status_code : Z;
  entry_duration : Z;
  entry_client_ip : string;
  entry_user_agent : option string;
  entry_api_key : string
}.

Definition request_logs : string := "api:request_logs".

(** [json.dumps] of a log entry and [json.loads] of a logged line.  The
    module imports [jwt], [time], [aioredis], [datetime] and [timedelta]
    and binds no [json] (nor the [Depends], [Dict] and [Any] its signatures
    name), so what the two calls do is left open: in the module as it is
    the lookup of the name raises [NameError] ([unbound_json]); with the
    import added they are the functions of the library. *)
Class JsonModule := {
  json_dumps : RequestLogEntry → Result string;
  json_loads : string → Result RequestLogEntry
}.

Definition unbound_json : JsonModule :=
  {| json_dumps := λ _, Raise (name_error "json");
     json_loads := λ _, Raise (name_error "json") |}.

(** The [log_entry] dictionary of [RequestLogger.dispatch]. *)
Definition log_entry (request : Request) (response : Response)
    (method path : string) (start_time end_time : Z) : RequestLogEntry :=
  let duration := end_time - start_time in
  {| entry_timestamp := end_time;
     entry_method := method;
     entry_path := path;
     entry_status_code := status_code response;
     entry_duration := duration;
     entry_client_ip := client_host request;
     entry_user_agent := request_headers request !! "user-agent";
     entry_api_key := default "none" (request_headers request !! "X-API-Key") |}.

(** [RequestLogger.dispatch].  [method] and [path] are [request.method] and
    [request.url.path]; [start_time] is the clock before [call_next], and
    [end_time] the clock after it.  No handler surrounds the body. *)
Definition logger_dispatch {J : JsonModule} (call_next : Request → Result Response)
    (request : Request) (method path : string) (start_time end_time : Z)
    (redis : gmap string (list string)) :
    Result Response * gmap string (list string) :=
  match call_next request with
  | Raise e => (Raise e, redis)
  | Ok response =>
    match json_dumps (log_entry request response method path start_time end_time) with
    | Raise e => (Raise e, redis)
    | Ok line =>
      (Ok response, Redis.ltrim request_logs 0 9999 (Redis.lpush request_logs line redis))
    end
  end.

(** The request log, newest entry first: [lrange("api:request_logs", 0, -1)]. *)
Definition request_log (redis : gmap string (list string)) : list string :=
  default [] (redis !! request_logs).

(** *** [get_api_usage] *)

Record ApiUsage := {
  hourly_usage : Z;
  total_requests : Z;
  usage_rate_limit : Z;
  remaining : Z
}.

(** The [for minute in range(60)] loop: the counters of the current window
    and of the 59 before it are added up. *)
Definition usage_loop (api_key : string) (now current_window : Z)
    (counters : gmap string (Z * option Z)) (minutes : list nat) (hourly_usage : Z) : Z :=
  foldl (λ hourly_usage minute,
           let window_key :=
             "ratelimit:" +:+ api_key +:+ ":" +:+ pretty (current_window - Z.of_nat minute) in
           match Redis.get now window_key counters with
           | Some count => hourly_usage + count
           | None => hourly_usage
           end)
        hourly_usage minutes.

(** The [for log in logs] loop. *)
Fixpoint count_requests {J : JsonModule} (api_key : string) (logs : list string)
    (total_requests : Z) : Result Z :=
  match logs with
  | [] => Ok total_requests
  | log :: logs =>
    match json_loads log with
    | Raise e => Raise e
    | Ok log_data =>
      count_requests api_key logs
        (if decide (entry_api_key log_data = api_key) then total_requests + 1
         else total_requests)
    end
  end.

(** [get_api_usage]; [now] is [int(time.time())]. *)
Definition get_api_usage `{StrHTTPException} {J : JsonModule} (api_key : string) (now : Z)
    (counters : gmap string (Z * option Z))
    (redis : gmap string (list string)) : Result ApiUsage :=
  let current_window := now `div` 60 in
  let hourly_usage := usage_loop api_key now current_window counters (seq 0 60) 0 in
  match count_requests api_key (request_log redis) 0 with
  | Raise e => Raise (HTTPException 500 (JStr ("Error getting API usage: " +:+ exc_str e)))
  | Ok total_requests =>
    Ok {| hourly_usage := hourly_usage;
          total_requests := total_requests;
          usage_rate_limit := 100;
          remaining := Z.max 0 (100 - hourly_usage) |}
  end.

End Middleware.

(** ** [src/services/data_access.py] *)
Module DataAccess.
Import Token.

(** An entry of the ["cynix:access_logs"] list. *)
Record LogEntry := {
  log_wallet_address : string;
  log_data_type : string;
  log_params : option Dict;
  log_timestamp : Z
}.

(** What the service can reach through [self.redis]: the cached payloads
    (string keys with an expiry) and the lists.  A cached payload is kept
    as the dictionary itself: [json.loads] undoes [json.dumps], and
    [json.dumps] never yields the empty string, so [if cached_data] holds
    exactly when the key is live.  [fetched] records every call of a
    fetcher, oldest first. *)
Record World := {
  cache : gmap string (Dict * option Z);
  lists : gmap string (list LogEntry);
  fetched : list (string * Dict)
}.

(** What the service reaches through [self] without the class defining
    it, and [json.dumps(_, sort_keys=True)].

    The three fetchers are the values of the attribute lookups
    [self._fetch_github_data], [self._fetch_twitter_data] and
    [self._fetch_blockchain_data] that build the dictionary of
    [_fetch_raw_data]: the bound method, or the [AttributeError] of an
    object that has no such attribute.  [_get_metric_data_points] and
    [_aggregate_by_interval] stand for the whole call expression, the lookup
    of the attribute included. *)
Record Externals := {
  json_dumps_sort_keys : Dict → string;
  _fetch_github_data : Result (Dict → Result Dict);
  _fetch_twitter_data : Result (Dict → Result Dict);
  _fetch_blockchain_data : Result (Dict → Result Dict);
  _get_metric_data_points : World → string → Z → Z → Result (list Json);
  _aggregate_by_interval : list Json → Z → Z → Z → Result (list Json)
}.

(** The [AttributeError] of a missing attribute of the service. *)
Definition attribute_error (name : string) : Exc :=
  PyError AttributeError
    ("'DataAccessService' object has no attribute '" +:+ name +:+ "'").

(** The object as the class in the repository makes it: none of the five
    methods exists. *)
Definition shipped (json_dumps_sort_keys : Dict → string) : Externals :=
  {| json_dumps_sort_keys := json_dumps_sort_keys;
     _fetch_github_data := Raise (attribute_error "_fetch_github_data");
     _fetch_twitter_data := Raise (attribute_error "_fetch_twitter_data");
     _fetch_blockchain_data := Raise (attribute_error "_fetch_blockchain_data");
     _get_metric_data_points := λ _ _ _ _,
       Raise (attribute_error "_get_metric_data_points");
     _aggregate_by_interval := λ _ _ _ _,
       Raise (attribute_error "_aggregate_by_interval") |}.

Record DataAccessService := {
  externals : Externals;
  cynix_token : CynixToken
}.

Definition cache_ttl : Z := 300.
Definition access_logs : string := "cynix:access_logs".

(** [timedelta(days=d)] and [timedelta(hours=h)], in seconds. *)
Definition days (d : Z) : Z := d * 86400.
Definition hours (h : Z) : Z := h * 3600.

(** [if params:] is false for [None] and for the empty dictionary. *)
Definition truthy (params : option Dict) : bool :=
  match params with
  | Some p => negb (bool_decide (p = ∅))
  | None => false
  end.

Definition _generate_cache_key (self : DataAccessService) (data_type : string)
    (params : option Dict) : string :=
  if truthy params then
    "cynix:raw:" +:+ data_type +:+ ":" +:+
      json_dumps_sort_keys (externals self) (default ∅ params)
  else "cynix:raw:" +:+ data_type.

Definition call_fetcher (name : string) (fetcher : Dict → Result Dict) (arg : Dict)
    (w : World) : Result Dict * World :=
  (fetcher arg,
   {| cache := cache w; lists := lists w; fetched := fetched w ++ [(name, arg)] |}).

(** [_fetch_raw_data]: the dictionary literal looks the three methods up,
    in this order, before the data type is tested. *)
Definition _fetch_raw_data (self : DataAccessService) (data_type : string)
    (params : option Dict) (w : World) : Result Dict * World :=
  match _fetch_github_data (externals self) with
  | Raise e => (Raise e, w)
  | Ok github =>
    match _fetch_twitter_data (externals self) with
    | Raise e => (Raise e, w)
    | Ok twitter =>
      match _fetch_blockchain_data (externals self) with
      | Raise e => (Raise e, w)
      | Ok blockchain =>
        (* params or {} *)
        let arg := default ∅ params in
        if decide (data_type = "github") then call_fetcher data_type github arg w
        else if decide (data_type = "twitter") then call_fetcher data_type twitter arg w
        else if decide (data_type = "blockchain") then
          call_fetcher data_type blockchain arg w
        else (Raise (PyError ValueError ("Unsupported data type: " +:+ data_type)), w)
      end
    end
  end.

Definition _log_data_access (now : Z) (wallet_address data_type : string)
    (params : option Dict) (w : World) : World :=
  let log_entry :=
    {| log_wallet_address := wallet_address;
       log_data_type := data_type;
       log_params := params;
       log_timestamp := now |} in
  {| cache := cache w;
     lists := Redis.ltrim access_logs 0 9999 (Redis.lpush access_logs log_entry (lists w));
     fetched := fetched w |}.

Section service.
Context `{StrHTTPException}.

(** [now] is the clock reading during the call. *)
Definition get_raw_data (self : DataAccessService) (now : Z)
    (wallet_address data_type : string) (params : option Dict) (w : World) :
    Dict * World :=
  match check_access_level (cynix_token self) wallet_address with
  | AccessError _ =>
    (* access_info["access_levels"] raises KeyError, caught below *)
    (error_dict (exc_str (PyError KeyError "'access_levels'")), w)
  | AccessOk access_info =>
    if negb (raw_data_access (access_levels access_info)) then
      (error_dict "Insufficient token stake for raw data access", w)
    else
      let cache_key := _generate_cache_key self data_type params in
      match Redis.get now cache_key (cache w) with
      | Some cached_data => (cached_data, w)
      | None =>
        match _fetch_raw_data self data_type params w with
        | (Raise e, w) => (error_dict (exc_str e), w)
        | (Ok data, w) =>
          let w :=
            {| cache := Redis.setex now cache_key cache_ttl data (cache w);
               lists := lists w;
               fetched := fetched w |} in
          let w := _log_data_access now wallet_address data_type params w in
          (data, w)
        end
      end
  end.

Definition time_ranges : gmap string Z :=
  {[ "24h" := days 1; "7d" := days 7; "30d" := days 30 ]}.

Definition _aggregate_metric (self : DataAccessService) (metric : string)
    (start_time end_time : Z) (w : World) : Result (list Json) :=
  match _get_metric_data_points (externals self) w metric start_time end_time with
  | Raise e => Raise e
  | Ok data_points =>
    let time_diff := end_time - start_time in
    let interval :=
      if decide (time_diff ≤ days 1) then hours 1
      else if decide (time_diff ≤ days 7) then days 1
      else days 7 in
    _aggregate_by_interval (externals self) data_points start_time end_time interval
  end.

Definition get_analytics_data (self : DataAccessService) (now : Z)
    (wallet_address metric timeframe : string) (w : World) : Dict :=
  match time_ranges !! timeframe with
  | None => error_dict "Invalid timeframe"
  | Some range =>
    let end_time := now in
    let start_time := end_time - range in
    match _aggregate_metric self metric start_time end_time w with
    | Raise e => error_dict (exc_str e)
    | Ok aggregated_data =>
      {[ "metric" := JStr metric;
         "timeframe" := JStr timeframe;
         "data" := JList aggregated_data ]}
    end
  end.
End service.

(** The entries of the access log, newest first. *)
Definition access_log (w : World) : list LogEntry := default [] (lists w !! access_logs).

End DataAccess.

(** ** [src/agents/base.py] *)
Module Agents.

(** An agent: its class name and the [_process_internal] of its subclass. *)
Record Agent := {
  class_name : string;
  _process_internal : Dict → Result Dict
}.

(** The envelope both formatters build; [data] is present on success and
    [error] on failure.  [timestamp] is [asyncio.get_event_loop().time()]. *)
Record Envelope := {
  status : string;
  agent_type : string;
  timestamp : Z;
  data : option Dict;
  error : option string
}.

Definition _format_response (self : Agent) (loop_time : Z) (result : Dict) : Envelope :=
  {| status := "success";
     agent_type := class_name self;
     timestamp := loop_time;
     data := Some result;
     error := None |}.

Definition _format_error (self : Agent) (loop_time : Z) (error_message : string) : Envelope :=
  {| status := "error";
     agent_type := class_name self;
     timestamp := loop_time;
     data := None;
     error := Some error_message |}.

Definition process_data `{StrHTTPException} (self : Agent) (loop_time : Z) (data : Dict) : Envelope :=
  match _process_internal self data with
  | Ok result => _format_response self loop_time result
  | Raise e => _format_error self loop_time (exc_str e)
  end.

End Agents.

(** ** [src/api/routes.py] *)
Module Routes.
Import Token DataAccess.

(** [try: body  except Exception as e: raise HTTPException(500, str(e))].
    [HTTPException] is a subclass of [Exception], so the handler also takes
    what the body raises on purpose. *)
Definition try_except_500 `{StrHTTPException} {A} (body : Result A) : Result A :=
  match body with
  | Ok a => Ok a
  | Raise e => Raise (HTTPException 500 (JStr (exc_str e)))
  end.

Section routes.
Context `{StrHTTPException}.

(** The body of [get_data], entered once [Depends(verify_api_key)] has
    accepted the credential. *)
Definition get_data (data_service : DataAccessService) (now : Z)
    (data_type wallet_address : string) (params : option Dict) (w : World) :
    Result Dict * World :=
  let '(result, w) := get_raw_data data_service now wallet_address data_type params w in
  (try_except_500
     (match result !! "error" with
      | Some detail => Raise (HTTPException 403 detail)
      | None => Ok result
      end), w).
End routes.

(** The status of the HTTP response FastAPI sends for the outcome of a
    route handler (an exception raised in a middleware is not answered
    this way). *)
Definition http_status {A} (outcome : Result A) : Z :=
  match outcome with
  | Ok _ => 200
  | Raise (HTTPException status _) => status
  | Raise (PyError _ _) => 500
  end.

(** *** The analyzer endpoints *)

(** The body shared by [analyze_code], [analyze_meme] and
    [analyze_influencer], which differ in the agent class they construct:
    [new_agent] is the constructor call, [initialize] and [cleanup] the
    agent's session set-up and tear-down. *)
Definition analyze `{StrHTTPException} (new_agent : Result Agents.Agent)
    (initialize cleanup : Agents.Agent → Result ()) (loop_time : Z) (data : Dict) :
    Result Agents.Envelope :=
  try_except_500
    (match new_agent with
     | Raise e => Raise e
     | Ok agent =>
       match initialize agent with
       | Raise e => Raise e
       | Ok _ =>
         let result := Agents.process_data agent loop_time data in
         match cleanup agent with
         | Raise e => Raise e
         | Ok _ => Ok result
         end
       end
     end).

(** *** The webhook endpoint *)

(** What the three global names of [process_webhook]'s dictionary
    evaluate to: the function, or the [NameError] of a name the module does
    not bind. *)
Record WebhookHandlers := {
  handle_alpha_webhook : Result (Json → Result Dict);
  handle_meme_webhook : Result (Json → Result Dict);
  handle_price_webhook : Result (Json → Result Dict)
}.

(** The module as the repository has it: it neither defines nor imports
    any of the three. *)
Definition shipped_handlers : WebhookHandlers :=
  {| handle_alpha_webhook := Raise (name_error "handle_alpha_webhook");
     handle_meme_webhook := Raise (name_error "handle_meme_webhook");
     handle_price_webhook := Raise (name_error "handle_price_webhook") |}.

(** [process_webhook]: the dictionary literal evaluates the three names, in
    this order, before the event type is looked up. *)
Definition process_webhook (handlers : WebhookHandlers) (event_type : string)
    (payload : Json) : Result Dict :=
  match handle_alpha_webhook handlers with
  | Raise e => Raise e
  | Ok alpha =>
    match handle_meme_webhook handlers with
    | Raise e => Raise e
    | Ok meme =>
      match handle_price_webhook handlers with
      | Raise e => Raise e
      | Ok price =>
        let handler :=
          if decide (event_type = "new_alpha") then Some alpha
          else if decide (event_type = "new_meme") then Some meme
          else if decide (event_type = "price_alert") then Some price
          else None in
        match handler with
        | None => Raise (PyError ValueError ("Unsupported event type: " +:+ event_type))
        | Some handler => handler payload
        end
      end
    end
  end.

Record WebhookResponse := {
  webhook_status : string;
  webhook_event_type : string;
  webhook_result : Dict
}.

(** [webhook_handler]; [request_json] is the outcome of [request.json()]. *)
Definition webhook_handler `{StrHTTPException} (handlers : WebhookHandlers)
    (request_json : Result Json) (request : Middleware.Request) : Result WebhookResponse :=
  try_except_500
    (match request_json with
     | Raise e => Raise e
     | Ok payload =>
       let event_type := Middleware.request_headers request !! "X-Cynix-Event" in
       match event_type with
       | Some event_type =>
         if decide (event_type = "") then
           Raise (HTTPException 400 (JStr "Missing event type header"))
         else
           match process_webhook handlers event_type payload with
           | Raise e => Raise e
           | Ok result =>
             Ok {| webhook_status := "processed";
                   webhook_event_type := event_type;
                   webhook_result := result |}
           end
       | None => Raise (HTTPException 400 (JStr "Missing event type header"))
       end
     end).

End Routes.

(** ** [src/services/telegram.py] *)
Module Telegram.
Import Token.

(** The bot: its token client, the configuration entries it reads, and the
    Telegram calls it makes.  [send_message chat_id text] and
    [create_chat_invite_link chat_id member_limit expire_date] may raise;
    [json_dumps_indent] is [json.dumps(_, indent=2)]; [regular_channel_id]
    is [config["regular_channel_id"]], a [KeyError] when the entry is
    absent. *)
Record CynixTelegramBot := {
  cynix_token : CynixToken;
  alpha_channel_id : string;
  regular_channel_id : Result string;
  send_message : string → string → Result ();
  create_chat_invite_link : string → Z → Z → Result string;
  json_dumps_indent : Dict → string
}.

(** The module imports [asyncio] and [json], and does not import [time]:
    evaluating [time.time()] in it raises [NameError]. *)
Definition time_time : Result Z := Raise (name_error "time").

(** [_generate_channel_invite]: the arguments of
    [create_chat_invite_link] are evaluated before the call is made. *)
Definition _generate_channel_invite (self : CynixTelegramBot) (user_id : Z) : Result string :=
  match time_time with
  | Raise e => Raise e
  | Ok now => create_chat_invite_link self (alpha_channel_id self) 1 (now + 3600)
  end.

Definition premium_delay : Z := 900.

Definition _format_alpha_message (self : CynixTelegramBot) (message : string)
    (data : option Dict) (is_premium : bool) : string :=
  let header := if is_premium then "🔥 PREMIUM ALPHA" else "🔔 ALPHA ALERT" in
  let formatted_message := header +:+ "

" +:+ message in
  let formatted_message :=
    if DataAccess.truthy data && is_premium then
      formatted_message +:+ "

Detailed Analysis:
" +:+ json_dumps_indent self (default ∅ data)
    else formatted_message in
  formatted_message +:+ "

#CynixAlpha".

(** A message handed to Telegram: the clock at that moment, the chat and
    the text.  Between the two messages of an alert the clock advances by
    the [asyncio.sleep] alone. *)
Record Sent := {
  sent_at : Z;
  sent_chat : string;
  sent_text : string
}.

(** [send_alpha_alert], started at time [now]: the messages delivered, in
    order.  Whatever is raised is printed and dropped. *)
Definition send_alpha_alert (self : CynixTelegramBot) (now : Z) (message : string)
    (data : option Dict) : list Sent :=
  let premium_message := _format_alpha_message self message data true in
  match send_message self (alpha_channel_id self) premium_message with
  | Raise _ => []
  | Ok _ =>
    let sent := [ {| sent_at := now; sent_chat := alpha_channel_id self;
                     sent_text := premium_message |} ] in
    let now := now + premium_delay in
    let regular_message := _format_alpha_message self message data false in
    match regular_channel_id self with
    | Raise _ => sent
    | Ok chat_id =>
      match send_message self chat_id regular_message with
      | Raise _ => sent
      | Ok _ =>
        sent ++ [ {| sent_at := now; sent_chat := chat_id; sent_text := regular_message |} ]
      end
    end
  end.

Definition verify_error_reply : string :=
  "Error verifying wallet. Please check the address and try again.".

Definition verify_usage_reply : string :=
  "Please provide a valid wallet address:
/verify <wallet_address>".

(** [except (IndexError, ValueError)] *)
Definition is_IndexError_or_ValueError (e : Exc) : bool :=
  match e with
  | PyError ValueError _ => true
  | PyError (OtherException name) _ => bool_decide (name = "IndexError")
  | _ => false
  end.

(** [_verify_command]: [args] is [context.args], [user_id] is
    [update.effective_user.id]; the result is the text replied, or the
    exception that leaves the handler. *)
Definition _verify_command `{StrHTTPException} (self : CynixTelegramBot)
    (args : list string) (user_id : Z) : Result string :=
  let body : Result string :=
    match args with
    | [] => Raise (PyError (OtherException "IndexError") "list index out of range")
    | wallet_address :: _ =>
      match check_access_level (cynix_token self) wallet_address with
      | AccessError msg =>
        if decide (msg = "") then Raise (PyError KeyError "'access_levels'")
        else Ok verify_error_reply
      | AccessOk access_info =>
        if alpha_access (access_levels access_info) then
          match _generate_channel_invite self user_id with
          | Raise e => Raise e
          | Ok invite_link =>
            Ok ("✅ Verification successful! Here's your premium channel invite:
" +:+ invite_link)
          end
        else
          let required_amount := 1000 in
          let current_amount := total_tokens access_info in
          Ok ("❌ Insufficient CYNIX tokens. You need " +:+ pretty required_amount
              +:+ " tokens for premium access.
Current balance: " +:+ pretty current_amount)
      end
    end in
  match body with
  | Raise e => if is_IndexError_or_ValueError e then Ok verify_usage_reply else Raise e
  | Ok reply => Ok reply
  end.

End Telegram.

(** ** Concrete wallets, tokens and services, for the examples *)
Module Demo.
Import Token Middleware DataAccess.

(** [str(e)] of recent Starlette releases, for a string detail. *)
Definition starlette_str : StrHTTPException := λ status detail,
  pretty status +:+ ": " +:+ match detail with JStr s => s | _ => "" end.

(** A ledger on which every wallet holds token accounts with the given
    balances and has the given staking account. *)
Definition ledger (balances : list Z) (staking : option (list Byte.byte)) : Ledger :=
  {| PublicKey_new := Ok;
     pubkey_bytes := λ _, [];
     find_program_address := λ _ _, ("staking-account", 255);
     get_token_accounts_by_owner := λ _ _, Ok (Ok <$> balances);
     get_account_info := λ _, Ok staking |}.

Definition token (balances : list Z) (staking : option (list Byte.byte)) : CynixToken :=
  {| client := ledger balances staking;
     token_mint := "mint";
     admin := "admin";
     staking_program := "StakeProgram1111111111111111111111111111111" |}.

(** A staking account: 24 bytes, the amount in the first eight. *)
Definition staking_account (b0 b1 : Byte.byte) : list Byte.byte :=
  [b0; b1] ++ replicate 22 Byte.x00.

(** Holds 100 tokens in one account, 50 staked. *)
Definition small_holder : CynixToken := token [100] (Some (staking_account Byte.x32 Byte.x00)).

(** [total_tokens = 12000], [staked_amount = 200]. *)
Definition low_stake : CynixToken := token [11800] (Some (staking_account Byte.xc8 Byte.x00)).

(** [staked_amount = 6000]. *)
Definition high_stake : CynixToken := token [6000] (Some (staking_account Byte.x70 Byte.x17)).

(** No tokens, no staking account. *)
Definition empty_wallet : CynixToken := token [] None.

(** A staking account of a single byte. *)
Definition short_account : CynixToken := token [] (Some [Byte.x01]).

Definition github_payload : Dict := {[ "stars" := JInt 42 ]}.

Definition fetchers : Externals :=
  {| json_dumps_sort_keys := λ _, "{}";
     _fetch_github_data := Ok (λ _, Ok github_payload);
     _fetch_twitter_data := Ok (λ _, Ok ∅);
     _fetch_blockchain_data := Ok (λ _, Ok ∅);
     _get_metric_data_points := λ _ _ _ _, Ok [];
     _aggregate_by_interval := λ _ _ _ _, Ok [] |}.

Definition service (t : CynixToken) : DataAccessService :=
  {| externals := fetchers; cynix_token := t |}.

(** The service as the repository has it: no fetcher, no analytics helper. *)
Definition shipped_service (t : CynixToken) : DataAccessService :=
  {| externals := shipped (λ _, "{}"); cynix_token := t |}.

Definition empty_world : World := {| cache := ∅; lists := ∅; fetched := [] |}.

(** A request carrying an API key, and the application answering 200. *)
Definition request : Request :=
  {| request_headers := {[ "X-API-Key" := "key-1" ]};
     client_host := "10.0.0.1" |}.

Definition app : Request → Result Response :=
  λ _, Ok {| status_code := 200; response_headers := ∅; body := JNull |}.

(** A correctly signed key for wallet ["W"] that expired at time 1000. *)
Definition expired_key : ApiKey :=
  {| well_formed := true;
     signature_valid := true;
     payload := {| exp := Some 1000; wallet_address := Some (JStr "W") |} |}.

(** A token over a ledger that answers with the given token accounts and
    the given outcome of the staking-account lookup. *)
Definition token_of (accounts : list (Result Z))
    (staking : Result (option (list Byte.byte))) : CynixToken :=
  {| client :=
       {| PublicKey_new := Ok;
          pubkey_bytes := λ _, [];
          find_program_address := λ _ _, ("staking-account", 255);
          get_token_accounts_by_owner := λ _ _, Ok accounts;
          get_account_info := λ _, staking |};
     token_mint := "mint";
     admin := "admin";
     staking_program := "StakeProgram1111111111111111111111111111111" |}.

(** The second of three token accounts has an amount that is no number. *)
Definition broken_account : CynixToken :=
  token_of [Ok 100; Raise (PyError ValueError "invalid literal for int()"); Ok 5] (Ok None).

(** The staking-account lookup fails; the wallet holds 7000 tokens. *)
Definition staking_rpc_down : CynixToken :=
  token_of [Ok 7000] (Raise (PyError (OtherException "ConnectError") "rpc unreachable")).

(** A request of another client. *)
Definition other_request : Request :=
  {| request_headers := {[ "X-API-Key" := "key-2" ]};
     client_host := "10.0.0.2" |}.

(** A request without an API key. *)
Definition anonymous_request : Request :=
  {| request_headers := {[ "user-agent" := "curl/8.0" ]};
     client_host := "10.0.0.3" |}.

(** What [check_access_level] reports for [high_stake] and [small_holder]. *)
Definition high_stake_info : AccessInfo :=
  {| total_tokens := 12000; staked_amount := 6000; access_levels := levels 12000 6000 |}.

Definition small_holder_info : AccessInfo :=
  {| total_tokens := 150; staked_amount := 50; access_levels := levels 150 50 |}.

(** Parameters of a request for the data of one repository. *)
Definition repo_params : Dict := {[ "repo" := JStr "cynix" ]}.

(** An agent whose analysis fails on a missing key. *)
Definition failing_agent : Agents.Agent :=
  {| Agents.class_name := "AuraAgent";
     Agents._process_internal := λ _, Raise (PyError KeyError "'github_url'") |}.

(** A stand-in for [json] that keeps the API key of an entry and nothing
    else: the line of an entry is its key. *)
Definition entry_of_key (key : string) : RequestLogEntry :=
  {| entry_timestamp := 0; entry_method := ""; entry_path := "";
     entry_status_code := 0; entry_duration := 0; entry_client_ip := "";
     entry_user_agent := None; entry_api_key := key |}.

Definition key_json : JsonModule :=
  {| json_dumps := λ entry, Ok (entry_api_key entry);
     json_loads := λ line, Ok (entry_of_key line) |}.

(** Webhook handlers that accept every payload. *)
Definition webhook_handlers : Routes.WebhookHandlers :=
  {| Routes.handle_alpha_webhook := Ok (λ _, Ok ∅);
     Routes.handle_meme_webhook := Ok (λ _, Ok ∅);
     Routes.handle_price_webhook := Ok (λ _, Ok ∅) |}.

(** A webhook announcing a meme. *)
Definition webhook_request : Request :=
  {| request_headers := {[ "X-Cynix-Event" := "new_meme" ]};
     client_host := "10.0.0.4" |}.

(** A bot whose Telegram calls all succeed. *)
Definition bot (t : CynixToken) : Telegram.CynixTelegramBot :=
  {| Telegram.cynix_token := t;
     Telegram.alpha_channel_id := "@cynix_alpha";
     Telegram.regular_channel_id := Ok "@cynix";
     Telegram.send_message := λ _ _, Ok ();
     Telegram.create_chat_invite_link := λ _ _ _, Ok "https://t.me/+invite";
     Telegram.json_dumps_indent := λ _, "{}" |}.

End Demo.

(** * Properties *)

(** ** Access evaluation ([check_access_level]) *)
Section access.
Import Token.
Context `{StrHTTPException}.

Lemma sum_balances_ok (balances : list Z) (acc : Z) :
  sum_balances (Ok <$> balances) acc = Ok (acc + foldr Z.add 0 balances).
Proof.
  revert acc. induction balances as [|b balances IH]; intros acc; simpl.
  - f_equal. lia.
  - rewrite IH. f_equal. lia.
Qed.

Lemma check_access_level_levels self wallet_address info :
  check_access_level self wallet_address = AccessOk info →
  access_levels info = levels (total_tokens info) (staked_amount info).
Proof.
  unfold check_access_level.
  destruct (PublicKey_new _ _) as [pubkey|]; [|done].
  destruct (get_token_accounts_by_owner _ _ _) as [accounts|]; [|done].
  destruct (sum_balances _ _) as [total_balance|]; [|done].
  intros [= <-]. done.
Qed.

(** C5. Whenever [check_access_level] answers, its access levels are the
    function [levels] of the two numbers it reports: alpha from 1000
    total tokens, raw data from 5000 staked, API from 10000 total,
    governance from 50000 total; 999 total tokens give no alpha access
    and 1000 give it. *)
Theorem access_levels_thresholds self wallet_address info :
  check_access_level self wallet_address = AccessOk info →
  access_levels info = levels (total_tokens info) (staked_amount info) ∧
  (alpha_access (access_levels info) = true ↔ 1000 ≤ total_tokens info) ∧
  (raw_data_access (access_levels info) = true ↔ 5000 ≤ staked_amount info) ∧
  (api_access (access_levels info) = true ↔ 10000 ≤ total_tokens info) ∧
  (governance_access (access_levels info) = true ↔ 50000 ≤ total_tokens info) ∧
  (∀ staked, alpha_access (levels 999 staked) = false ∧
             alpha_access (levels 1000 staked) = true).
Proof.
  intros Hcheck. apply check_access_level_levels in Hcheck as ->.
  unfold levels; simpl.
  rewrite !Z.geb_le. repeat split; auto.
Qed.

(** C7. Raising the total, the stake, or both never takes a tier away. *)
Theorem access_monotone (t : Tier) (total_tokens staked_amount total_tokens' staked_amount' : Z) :
  total_tokens ≤ total_tokens' →
  staked_amount ≤ staked_amount' →
  granted t (levels total_tokens staked_amount) = true →
  granted t (levels total_tokens' staked_amount') = true.
Proof.
  intros Htotal Hstaked. destruct t; simpl; rewrite !Z.geb_le; lia.
Qed.

(** C6, as the code has it. When the wallet's token accounts are read,
    the reported [total_tokens] is the sum of their balances plus the
    staked amount, the latter being the amount of the staking account, or
    0 without one. *)
Theorem total_tokens_is_balances_plus_stake self wallet_address pubkey balances :
  PublicKey_new (client self) wallet_address = Ok pubkey →
  get_token_accounts_by_owner (client self) pubkey (token_mint self) = Ok (Ok <$> balances) →
  ∃ info,
    check_access_level self wallet_address = AccessOk info ∧
    total_tokens info = foldr Z.add 0 balances + staked_amount info ∧
    staked_amount info = from_option amount 0 (_get_staking_info self pubkey).
Proof.
  intros Hkey Haccounts. unfold check_access_level.
  rewrite Hkey, Haccounts, sum_balances_ok. eexists; split; [done|]. simpl.
  destruct (_get_staking_info self pubkey); simpl; split; (lia || done).
Qed.
End access.

Lemma access_levels_thresholds_witness :
  let info := {| Token.total_tokens := 12000; Token.staked_amount := 200;
                 Token.access_levels := Token.levels 12000 200 |} in
  Token.check_access_level (H:=Demo.starlette_str) Demo.low_stake "wallet" = Token.AccessOk info ∧
  (Token.alpha_access (Token.access_levels info) = true ↔ 1000 ≤ 12000) ∧
  (Token.raw_data_access (Token.access_levels info) = true ↔ 5000 ≤ 200).
Proof.
  intros info. split; [reflexivity|].
  destruct (access_levels_thresholds (H:=Demo.starlette_str) Demo.low_stake "wallet" info eq_refl)
    as (_ & Halpha & Hraw & _).
  split; assumption.
Defined.

Lemma access_monotone_witness :
  Token.granted Token.Alpha (Token.levels 12000 200) = true.
Proof.
  apply (access_monotone Token.Alpha 1000 0 12000 200); [lia | lia | reflexivity].
Defined.

(** C6 as the spec words it fails: a wallet whose only token account holds
    100 tokens and whose staking account holds 50 is reported with
    [total_tokens = 150]. *)
Lemma total_tokens_counts_stake :
  Token.get_token_accounts_by_owner (Token.client Demo.small_holder) "wallet" "mint"
    = Ok [Ok 100] ∧
  Token.check_access_level (H:=Demo.starlette_str) Demo.small_holder "wallet"
    = Token.AccessOk {| Token.total_tokens := 150; Token.staked_amount := 50;
                        Token.access_levels := Token.levels 150 50 |} ∧
  150 ≠ foldr Z.add 0 [100].
Proof. split; [reflexivity|]. split; [reflexivity|]. simpl. lia. Qed.

Lemma total_tokens_is_balances_plus_stake_witness :
  ∃ info,
    Token.check_access_level (H:=Demo.starlette_str) Demo.small_holder "wallet"
      = Token.AccessOk info ∧
    Token.total_tokens info = foldr Z.add 0 [100] + Token.staked_amount info ∧
    Token.staked_amount info
      = from_option Token.amount 0 (Token._get_staking_info Demo.small_holder "wallet").
Proof.
  apply (total_tokens_is_balances_plus_stake (H:=Demo.starlette_str)
           Demo.small_holder "wallet" "wallet" [100]); reflexivity.
Defined.

(** ** Decoding the staking account ([_parse_staking_data]) *)
Section staking.
Import Token.

Lemma byte_at_drop data off i : byte_at (drop off data) i = byte_at data (off + i).
Proof. unfold byte_at. by rewrite lookup_drop. Qed.

Lemma byte_at_range data i : 0 ≤ byte_at data i < 256.
Proof.
  unfold byte_at. destruct (data !! i) as [b|]; [|lia].
  pose proof (Byte.to_N_bounded b). lia.
Qed.

Lemma int_from_bytes_little_take8 (l : list Byte.byte) :
  int_from_bytes_little (take 8 l) = le_field l 0.
Proof.
  unfold le_field, byte_at; simpl.
  do 8 (destruct l as [|? l]; simpl; [lia|]). lia.
Qed.

Lemma slice_field data off :
  int_from_bytes_little (slice off (off + 8) data) = le_field data off.
Proof.
  unfold slice. replace (off + 8 - off)%nat with 8%nat by lia.
  rewrite int_from_bytes_little_take8. unfold le_field.
  apply foldr_ext; [|done|done]. intros i acc. by rewrite byte_at_drop.
Qed.

Lemma le_field_range data off : 0 ≤ le_field data off < 2 ^ 64.
Proof.
  unfold le_field; simpl.
  pose proof (byte_at_range data (off + 0)). pose proof (byte_at_range data (off + 1)).
  pose proof (byte_at_range data (off + 2)). pose proof (byte_at_range data (off + 3)).
  pose proof (byte_at_range data (off + 4)). pose proof (byte_at_range data (off + 5)).
  pose proof (byte_at_range data (off + 6)). pose proof (byte_at_range data (off + 7)).
  lia.
Qed.

(** C9, as the code has it. For data of any length the three fields are
    the little-endian numbers at offsets 0, 8 and 16, a byte past the end
    of the data counting as 0; each lies in the range of an unsigned 64-bit
    number; and an existing staking account is always decoded, never
    refused. *)
Theorem parse_staking_data_layout (data : list Byte.byte) :
  amount (_parse_staking_data data) = le_field data 0 ∧
  start_time (_parse_staking_data data) = le_field data 8 ∧
  last_claim (_parse_staking_data data) = le_field data 16 ∧
  0 ≤ amount (_parse_staking_data data) < 2 ^ 64 ∧
  0 ≤ start_time (_parse_staking_data data) < 2 ^ 64 ∧
  0 ≤ last_claim (_parse_staking_data data) < 2 ^ 64 ∧
  (∀ self wallet,
     get_account_info (client self) (_derive_staking_address self wallet) = Ok (Some data) →
     _get_staking_info self wallet = Some (_parse_staking_data data)).
Proof.
  assert (amount (_parse_staking_data data) = le_field data 0) as ->
    by apply (slice_field data 0).
  assert (start_time (_parse_staking_data data) = le_field data 8) as ->
    by apply (slice_field data 8).
  assert (last_claim (_parse_staking_data data) = le_field data 16) as ->
    by apply (slice_field data 16).
  do 3 (split; [done|]). do 3 (split; [apply le_field_range|]).
  intros self wallet Hinfo. unfold _get_staking_info. by rewrite Hinfo.
Qed.
End staking.

Lemma parse_staking_data_layout_witness :
  Token.amount (Token._parse_staking_data [Byte.x01]) = le_field [Byte.x01] 0 ∧
  Token._get_staking_info Demo.short_account "wallet"
    = Some (Token._parse_staking_data [Byte.x01]).
Proof.
  destruct (parse_staking_data_layout [Byte.x01]) as (Hamount & _ & _ & _ & _ & _ & Hinfo).
  split; [exact Hamount|]. apply Hinfo. reflexivity.
Defined.

(** C9 as the spec words it fails: a staking account of one byte is decoded
    to numbers, not refused. *)
Lemma short_staking_data_is_parsed :
  Token.get_account_info (Token.client Demo.short_account)
    (Token._derive_staking_address Demo.short_account "wallet") = Ok (Some [Byte.x01]) ∧
  Token._get_staking_info Demo.short_account "wallet"
    = Some {| Token.amount := 1; Token.start_time := 0; Token.last_claim := 0 |}.
Proof. split; reflexivity. Qed.

(** ** The rate limiter ([RateLimiter.dispatch]) *)
Section rate_limiter.
Import Middleware.
Implicit Types redis : gmap string (Z * option Z).

Lemma window_key_same cid request current t0 :
  client_id request = cid →
  current `div` window = t0 `div` window →
  window_key (client_id request) current = window_key cid t0.
Proof. intros -> Hw. unfold window_key. by rewrite Hw. Qed.

Lemma window_key_other_window cid t t' :
  t `div` window ≠ t' `div` window → window_key cid t ≠ window_key cid t'.
Proof.
  intros Hne Heq. unfold window_key in Heq.
  do 3 apply String.app_inj in Heq. by apply pretty_Z_inj in Heq.
Qed.

Lemma request_count_previous request current redis :
  request_count request current redis =
  default 0 (Redis.get current (window_key (client_id request) current) redis) + 1.
Proof.
  unfold request_count, Redis.incr, Redis.get.
  destruct (redis !! _) as [[n e]|]; [|done]. by destruct (Redis.live current e).
Qed.

(** What [dispatch] answers, by the value [INCR] returned. *)
Lemma dispatch_outcome call_next request current redis :
  (dispatch call_next request current redis).1 =
  if decide (request_count request current redis > rate_limit) then Raise rate_limit_exceeded
  else match call_next request with
       | Ok response =>
         Ok (add_rate_headers (request_count request current redis) current response)
       | Raise e => Raise e
       end.
Proof.
  unfold dispatch, request_count.
  destruct (Redis.incr _ _ _) as [count redis1]; simpl.
  destruct (decide (count > rate_limit)); [done|]. by destruct (call_next request).
Qed.

(** The store [dispatch] leaves: only the window key has changed, and it
    holds the value [INCR] returned, rejected or not. *)
Lemma dispatch_store call_next request current redis :
  let key := window_key (client_id request) current in
  let redis' := (dispatch call_next request current redis).2 in
  (∃ e, redis' !! key = Some (request_count request current redis, e)
        ∧ (request_count request current redis = 1 → e = Some (current + window))
        ∧ (request_count request current redis ≠ 1 → ∃ n, redis !! key = Some (n, e)))
  ∧ Redis.get current key redis' = Some (request_count request current redis)
  ∧ ∀ k, k ≠ key → redis' !! k = redis !! k.
Proof.
  intros key redis'.
  assert (∃ count redis1 e,
    Redis.incr current key redis = (count, redis1) ∧
    redis1 !! key = Some (count, e) ∧
    Redis.live current e = true ∧
    (count ≠ 1 → ∃ n, redis !! key = Some (n, e)) ∧
    ∀ k, k ≠ key → redis1 !! k = redis !! k) as (count & redis1 & e & Hincr & Hkey & Hlive & Hold & Hframe).
  { unfold Redis.incr. destruct (redis !! key) as [[n e]|] eqn:Hlook.
    - destruct (Redis.live current e) eqn:Hlive.
      + eexists _, _, e. split; [done|]. rewrite lookup_insert_eq.
        repeat split; eauto. intros k Hk. by rewrite lookup_insert_ne.
      + eexists _, _, None. split; [done|]. rewrite lookup_insert_eq.
        repeat split; [done|]. intros k Hk. by rewrite lookup_insert_ne.
    - eexists _, _, None. split; [done|]. rewrite lookup_insert_eq.
      repeat split; [done|]. intros k Hk. by rewrite lookup_insert_ne. }
  assert (request_count request current redis = count) as Hcount.
  { unfold request_count. fold key. by rewrite Hincr. }
  assert (redis' =
    if decide (count = 1) then Redis.expire current key window redis1 else redis1) as ->.
  { unfold redis', dispatch. fold key. rewrite Hincr.
    destruct (decide (count > rate_limit)); [done|]. by destruct (call_next request). }
  rewrite Hcount. destruct (decide (count = 1)) as [->|Hne].
  - unfold Redis.expire. rewrite Hkey, Hlive.
    split; [|split].
    + eexists. rewrite lookup_insert_eq. split; [done|]. split; [done|]. done.
    + unfold Redis.get. rewrite lookup_insert_eq. simpl.
      assert ((current <=? current + window) = true) as -> by (apply Z.leb_le; unfold window; lia).
      done.
    + intros k Hk. rewrite lookup_insert_ne by done. by apply Hframe.
  - split; [|split].
    + exists e. split; [done|]. split; [done|]. auto.
    + unfold Redis.get. by rewrite Hkey, Hlive.
    + done.
Qed.

Lemma admits_iff request current redis :
  admits request current redis ↔ request_count request current redis ≤ rate_limit.
Proof.
  split.
  - intros Hadmits.
    specialize (Hadmits (λ _, Ok {| status_code := 200; response_headers := ∅; body := JNull |})).
    rewrite dispatch_outcome in Hadmits.
    destruct (decide (_ > rate_limit)); [done|lia].
  - intros Hle call_next. rewrite dispatch_outcome.
    destruct (decide (_ > rate_limit)); [lia|done].
Qed.

Lemma rejects_iff request current redis :
  rejects request current redis ↔ request_count request current redis > rate_limit.
Proof.
  split.
  - intros Hrejects.
    specialize (Hrejects (λ _, Ok {| status_code := 200; response_headers := ∅; body := JNull |})).
    rewrite dispatch_outcome in Hrejects.
    destruct (decide (_ > rate_limit)); [done|done].
  - intros Hgt call_next. rewrite dispatch_outcome.
    destruct (decide (_ > rate_limit)); [done|lia].
Qed.

Lemma dispatch_window_state call_next cid t0 n request current redis :
  0 ≤ n →
  window_state (window_key cid t0) (t0 `div` window) n redis →
  client_id request = cid →
  current `div` window = t0 `div` window →
  request_count request current redis = n + 1 ∧
  window_state (window_key cid t0) (t0 `div` window) (n + 1)
    (dispatch call_next request current redis).2.
Proof.
  intros Hn Hstate Hcid Hwin.
  pose proof (window_key_same cid request current t0 Hcid Hwin) as Hkey.
  pose proof (Z.mul_div_le current window) as Hlo.
  pose proof (Z.mod_pos_bound current window) as Hmod.
  pose proof (Z.div_mod current window) as Hdm.
  unfold window in Hlo, Hmod, Hdm, Hwin |- *.
  assert (request_count request current redis = n + 1) as Hcount.
  { rewrite request_count_previous, Hkey. unfold window_state in Hstate.
    unfold Redis.get. destruct (decide (n = 0)) as [->|Hne].
    - by rewrite Hstate.
    - destruct Hstate as (e & -> & He). simpl.
      assert ((current <=? e) = true) as -> by (apply Z.leb_le; unfold window in He; lia).
      done. }
  split; [done|].
  destruct (dispatch_store call_next request current redis) as ((e & Hlook & Hone & Hmore) & _ & _).
  rewrite Hkey, Hcount in Hlook. rewrite Hcount in Hone. rewrite Hkey, Hcount in Hmore.
  unfold window_state. destruct (decide (n + 1 = 0)); [lia|].
  destruct (decide (n = 0)) as [->|Hne].
  - rewrite (Hone eq_refl) in Hlook. eexists. split; [done|]. unfold window. lia.
  - destruct Hmore as (m & Hm); [lia|].
    unfold window_state in Hstate. destruct (decide (n = 0)); [done|].
    destruct Hstate as (e' & He' & Hbound). rewrite He' in Hm. injection Hm as _ <-.
    eexists. split; [done|]. done.
Qed.
Lemma serve_cons call_next request current requests redis :
  serve call_next ((request, current) :: requests) redis =
  ((dispatch call_next request current redis).1
     :: (serve call_next requests (dispatch call_next request current redis).2).1,
   (serve call_next requests (dispatch call_next request current redis).2).2).
Proof.
  simpl. destruct (dispatch call_next request current redis) as [outcome redis1]; simpl.
  by destruct (serve call_next requests redis1).
Qed.

Lemma serve_window_state call_next cid t0 requests : ∀ n redis,
  0 ≤ n →
  window_state (window_key cid t0) (t0 `div` window) n redis →
  Forall (λ rt, client_id rt.1 = cid ∧ rt.2 `div` window = t0 `div` window) requests →
  window_state (window_key cid t0) (t0 `div` window) (n + Z.of_nat (length requests))
    (serve call_next requests redis).2.
Proof.
  induction requests as [|[request current] requests IH]; intros n redis Hn Hstate Hall.
  - simpl. by rewrite Z.add_0_r.
  - apply Forall_cons in Hall as [[Hcid Hwin] Hall]. simpl in Hcid, Hwin.
    rewrite serve_cons; simpl fst; simpl snd.
    destruct (dispatch_window_state call_next cid t0 n request current redis) as [_ Hnext];
      [done..|].
    replace (n + Z.of_nat (length ((request, current) :: requests)))
      with (n + 1 + Z.of_nat (length requests)) by (simpl length; lia).
    apply IH; [lia|done|done].
Qed.

Lemma serve_frame call_next key requests : ∀ redis,
  Forall (λ rt, window_key (client_id rt.1) rt.2 ≠ key) requests →
  (serve call_next requests redis).2 !! key = redis !! key.
Proof.
  induction requests as [|[request current] requests IH]; intros redis Hall; [done|].
  apply Forall_cons in Hall as [Hne Hall]. simpl in Hne.
  rewrite serve_cons; simpl snd. rewrite IH by done.
  destruct (dispatch_store call_next request current redis) as (_ & _ & Hframe).
  by apply Hframe.
Qed.

(** C4. [dispatch] passes a request on exactly when the counter of its
    (client, window) key, incremented for this request, is at most 100, and
    turns it away with 429 exactly when it is above; the incremented value
    is stored either way.  Hence, for one client's requests inside one
    window that starts without a key, request number [i + 1] is admitted
    exactly for [i < 100], and the client's first request of the following
    window is admitted again. *)
Theorem rate_limiter_window call_next cid t0 requests redis :
  redis !! window_key cid t0 = None →
  Forall (λ rt, client_id rt.1 = cid ∧ rt.2 `div` window = t0 `div` window) requests →
  (∀ request current redis0,
     request_count request current redis0
       = default 0 (Redis.get current (window_key (client_id request) current) redis0) + 1 ∧
     Redis.get current (window_key (client_id request) current)
       (dispatch call_next request current redis0).2
       = Some (request_count request current redis0) ∧
     (admits request current redis0 ↔ request_count request current redis0 ≤ 100) ∧
     (rejects request current redis0 ↔ request_count request current redis0 > 100)) ∧
  (∀ i request current,
     requests !! i = Some (request, current) →
     let before := (serve call_next (take i requests) redis).2 in
     request_count request current before = Z.of_nat i + 1 ∧
     (admits request current before ↔ (i < 100)%nat) ∧
     (rejects request current before ↔ (100 ≤ i)%nat)) ∧
  (∀ request current,
     client_id request = cid →
     current `div` window = t0 `div` window + 1 →
     redis !! window_key cid current = None →
     admits request current (serve call_next requests redis).2).
Proof.
  intros Hfresh Hall. split; [|split].
  - intros request current redis0.
    split; [apply request_count_previous|].
    split; [apply (dispatch_store call_next request current redis0)|].
    split; [apply admits_iff|apply rejects_iff].
  - intros i request current Hi before.
    assert (request_count request current before = Z.of_nat i + 1) as Hcount.
    { pose proof (lookup_lt_Some _ _ _ Hi) as Hlen.
      assert (window_state (window_key cid t0) (t0 `div` window) (Z.of_nat i) before) as Hstate.
      { replace (Z.of_nat i) with (0 + Z.of_nat (length (take i requests)))
          by (rewrite length_take; lia).
        apply serve_window_state; [lia|by unfold window_state|by apply Forall_take]. }
      rewrite Forall_lookup in Hall. destruct (Hall i _ Hi) as [Hcid Hwin].
      by destruct (dispatch_window_state call_next cid t0 (Z.of_nat i) request current before);
        [lia|..]. }
    split; [done|].
    rewrite admits_iff, rejects_iff, Hcount. unfold rate_limit. lia.
  - intros request current Hcid Hwin Hfresh'.
    apply admits_iff. rewrite request_count_previous, Hcid. unfold Redis.get.
    rewrite serve_frame, Hfresh'; [unfold rate_limit; simpl; lia|].
    eapply Forall_impl; [exact Hall|]. intros [r t] [Hr Ht]; simpl in *.
    rewrite (window_key_same cid r t t0 Hr Ht).
    apply window_key_other_window. lia.
Qed.

(** C8, as the code has it. When the request is admitted and the
    application answers, the answer keeps its status and body and carries
    the three headers: the limit 100, the remaining quota
    [max(0, 100 - count)], and the reset time [(now div 60) * 60 + 60],
    which is the first multiple of 60 after [now]. *)
Theorem admitted_response_headers call_next request current redis response :
  request_count request current redis ≤ rate_limit →
  call_next request = Ok response →
  ∃ response',
    (dispatch call_next request current redis).1 = Ok response' ∧
    status_code response' = status_code response ∧
    body response' = body response ∧
    response_headers response' !! "X-RateLimit-Limit" = Some "100" ∧
    response_headers response' !! "X-RateLimit-Remaining"
      = Some (pretty (Z.max 0 (100 - request_count request current redis))) ∧
    response_headers response' !! "X-RateLimit-Reset"
      = Some (pretty (current `div` 60 * 60 + 60)) ∧
    current < current `div` 60 * 60 + 60 ≤ current + 60 ∧
    (current `div` 60 * 60 + 60) `mod` 60 = 0.
Proof.
  intros Hle Hnext. rewrite dispatch_outcome, Hnext.
  destruct (decide (_ > rate_limit)); [lia|].
  eexists. split; [done|]. simpl.
  split; [done|]. split; [done|].
  split; [by rewrite !lookup_insert_ne by done; rewrite lookup_insert_eq|].
  split; [by rewrite lookup_insert_ne by done; rewrite lookup_insert_eq|].
  split; [by rewrite lookup_insert_eq|].
  pose proof (Z.mod_pos_bound current 60). pose proof (Z.div_mod current 60).
  split; [lia|].
  replace (current `div` 60 * 60 + 60) with ((current `div` 60 + 1) * 60) by lia.
  apply Z.mod_mul. lia.
Qed.
End rate_limiter.

Lemma rate_limiter_window_witness :
  Middleware.rejects Demo.request 30
    (Middleware.serve Demo.app (take 100 (replicate 101 (Demo.request, 30))) ∅).2 ∧
  Middleware.admits Demo.request 60
    (Middleware.serve Demo.app (replicate 101 (Demo.request, 30)) ∅).2.
Proof.
  destruct (rate_limiter_window Demo.app "key-1" 30 (replicate 101 (Demo.request, 30)) ∅)
    as (_ & Hin & Hnext).
  - reflexivity.
  - apply Forall_replicate. split; reflexivity.
  - split.
    + apply (Hin 100%nat Demo.request 30); [reflexivity|lia].
    + apply Hnext; reflexivity.
Defined.

Lemma admitted_response_headers_witness :
  ∃ response',
    (Middleware.dispatch Demo.app Demo.request 30 ∅).1 = Ok response' ∧
    Middleware.status_code response' = 200 ∧
    Middleware.body response' = JNull ∧
    Middleware.response_headers response' !! "X-RateLimit-Limit" = Some "100" ∧
    Middleware.response_headers response' !! "X-RateLimit-Remaining"
      = Some (pretty (Z.max 0 (100 - Middleware.request_count Demo.request 30 ∅))) ∧
    Middleware.response_headers response' !! "X-RateLimit-Reset"
      = Some (pretty (30 `div` 60 * 60 + 60)) ∧
    30 < 30 `div` 60 * 60 + 60 ≤ 30 + 60 ∧
    (30 `div` 60 * 60 + 60) `mod` 60 = 0.
Proof.
  apply (admitted_response_headers Demo.app Demo.request 30 ∅
           {| Middleware.status_code := 200;
              Middleware.response_headers := ∅;
              Middleware.body := JNull |}).
  - by vm_compute.
  - reflexivity.
Defined.

(** C8 as the spec words it fails: the 101st request of a window is answered
    by the 429 exception, which carries none of the three headers. *)
Lemma rejected_request_has_no_rate_headers :
  (Middleware.dispatch Demo.app Demo.request 30
     (Middleware.serve Demo.app (replicate 100 (Demo.request, 30)) ∅).2).1
    = Raise Middleware.rate_limit_exceeded ∧
  Middleware.outcome_headers
    (Middleware.dispatch Demo.app Demo.request 30
       (Middleware.serve Demo.app (replicate 100 (Demo.request, 30)) ∅).2).1
    !! "X-RateLimit-Limit" = None.
Proof. by vm_compute. Qed.

(** ** Credential verification ([verify_api_key]) *)
Section credential.
Import Middleware.

(** A correctly signed token whose [exp] has passed is stopped inside
    [jwt.decode], whose [ExpiredSignatureError] the handler for
    [InvalidTokenError] turns into "Invalid API key", whatever the time zone. *)
Lemma verify_expired_is_invalid clock api_key e :
  well_formed api_key = true →
  signature_valid api_key = true →
  exp (payload api_key) = Some e →
  e ≤ utc_now clock →
  verify_api_key clock api_key = Raise (HTTPException 401 (JStr "Invalid API key")).
Proof.
  intros Hwf Hsig Hexp Hpast. unfold verify_api_key, jwt_decode.
  rewrite Hwf, Hsig, Hexp; simpl.
  by assert ((e <=? utc_now clock) = true) as -> by by apply Z.leb_le.
Qed.

Lemma verify_tampered_is_invalid clock api_key :
  signature_valid api_key = false →
  verify_api_key clock api_key = Raise (HTTPException 401 (JStr "Invalid API key")).
Proof.
  intros Hsig. unfold verify_api_key, jwt_decode. rewrite Hsig.
  by destruct (well_formed api_key).
Qed.

Lemma verify_valid_returns_wallet clock api_key e w :
  well_formed api_key = true →
  signature_valid api_key = true →
  exp (payload api_key) = Some e →
  wallet_address (payload api_key) = Some w →
  utc_now clock < e →
  utc_now clock ≤ e + utc_offset clock →
  e + utc_offset clock ≤ max_timestamp →
  verify_api_key clock api_key = Ok w.
Proof.
  intros Hwf Hsig Hexp Hw Hfuture Hzone _. unfold verify_api_key, jwt_decode.
  rewrite Hwf, Hsig, Hexp; simpl.
  assert ((e <=? utc_now clock) = false) as -> by by apply Z.leb_gt.
  rewrite Hexp.
  assert ((e + utc_offset clock <? utc_now clock) = false) as -> by (apply Z.ltb_ge; lia).
  by rewrite Hw.
Qed.

(** "API key expired" is answered only to a token that has not expired. *)
Lemma verify_expired_message_only_unexpired clock api_key :
  verify_api_key clock api_key = Raise (HTTPException 401 (JStr "API key expired")) →
  ∃ e, exp (payload api_key) = Some e ∧ utc_now clock < e ∧ e + utc_offset clock < utc_now clock.
Proof.
  unfold verify_api_key, jwt_decode.
  destruct (well_formed api_key); simpl; [|done].
  destruct (signature_valid api_key); simpl; [|done].
  destruct (exp (payload api_key)) as [e|] eqn:Hexp; [|by rewrite Hexp].
  destruct (e <=? utc_now clock) eqn:Hle; simpl; [done|].
  rewrite Hexp. destruct (e + utc_offset clock <? utc_now clock) eqn:Hlt.
  - intros _. exists e. apply Z.leb_gt in Hle. apply Z.ltb_lt in Hlt. done.
  - by destruct (wallet_address (payload api_key)).
Qed.

(** C3 at a token that expired at 1000, checked at 2000 on a server in UTC:
    the answer is "Invalid API key", not "API key expired". *)
Theorem expired_key_answered_invalid :
  verify_api_key {| utc_now := 2000; utc_offset := 0 |} Demo.expired_key
    = Raise (HTTPException 401 (JStr "Invalid API key")).
Proof. reflexivity. Qed.
End credential.

(** ** The data access service ([get_raw_data], [get_analytics_data]) *)
Section data_access.
Import Token DataAccess Routes.
Context `{StrHTTPException}.

(** Below the staking threshold nothing is fetched, cached or logged. *)
Lemma get_raw_data_insufficient_stake self now wallet_address data_type params w info :
  check_access_level (cynix_token self) wallet_address = AccessOk info →
  staked_amount info < 5000 →
  get_raw_data self now wallet_address data_type params w
    = (error_dict "Insufficient token stake for raw data access", w).
Proof.
  intros Hcheck Hstake. unfold get_raw_data. rewrite Hcheck.
  pose proof (check_access_level_levels _ _ _ Hcheck) as ->. simpl.
  assert ((staked_amount info >=? 5000) = false) as ->; [|done].
  rewrite Z.geb_leb. apply Z.leb_gt. lia.
Qed.

(** The route wraps its own 403 into a 500. *)
Lemma get_data_insufficient_stake self now wallet_address data_type params w info :
  check_access_level (cynix_token self) wallet_address = AccessOk info →
  staked_amount info < 5000 →
  get_data self now data_type wallet_address params w
    = (Raise (HTTPException 500 (JStr (str_http_exception 403
         (JStr "Insufficient token stake for raw data access")))), w).
Proof.
  intros Hcheck Hstake. unfold get_data.
  by rewrite (get_raw_data_insufficient_stake _ _ _ _ _ _ info).
Qed.

(** A cache hit returns the cached payload and leaves the world as it was:
    no fetch, and no entry in the access log. *)
Lemma get_raw_data_cache_hit self now wallet_address data_type params w info cached :
  check_access_level (cynix_token self) wallet_address = AccessOk info →
  5000 ≤ staked_amount info →
  Redis.get now (_generate_cache_key self data_type params) (cache w) = Some cached →
  get_raw_data self now wallet_address data_type params w = (cached, w).
Proof.
  intros Hcheck Hstake Hhit. unfold get_raw_data. rewrite Hcheck.
  pose proof (check_access_level_levels _ _ _ Hcheck) as ->. simpl.
  assert ((staked_amount info >=? 5000) = true) as -> by (apply Z.geb_le; lia).
  simpl. by rewrite Hhit.
Qed.

Lemma access_log_logged now wallet_address data_type params w :
  access_log (_log_data_access now wallet_address data_type params w) =
  take (Z.to_nat 10000)
    ({| log_wallet_address := wallet_address; log_data_type := data_type;
        log_params := params; log_timestamp := now |} :: access_log w).
Proof.
  unfold access_log, _log_data_access, Redis.ltrim, Redis.lpush; cbn [lists].
  by rewrite !lookup_insert_eq.
Qed.

Lemma fetch_raw_data_effect self data_type params w data w1 :
  _fetch_raw_data self data_type params w = (Ok data, w1) →
  cache w1 = cache w ∧ lists w1 = lists w ∧
  fetched w1 = fetched w ++ [(data_type, default ∅ params)].
Proof.
  unfold _fetch_raw_data, call_fetcher. intros Hfetch.
  destruct (_fetch_github_data _); [|done].
  destruct (_fetch_twitter_data _); [|done].
  destruct (_fetch_blockchain_data _); [|done].
  repeat (destruct (decide _) in Hfetch); by simplify_eq.
Qed.

(** A miss with a successful fetch caches the payload for 300 seconds, calls
    one fetcher and puts one entry at the head of the access log. *)
Lemma get_raw_data_fresh self now wallet_address data_type params w info data w1 :
  check_access_level (cynix_token self) wallet_address = AccessOk info →
  5000 ≤ staked_amount info →
  Redis.get now (_generate_cache_key self data_type params) (cache w) = None →
  _fetch_raw_data self data_type params w = (Ok data, w1) →
  let w' := (get_raw_data self now wallet_address data_type params w).2 in
  (get_raw_data self now wallet_address data_type params w).1 = data ∧
  cache w' !! _generate_cache_key self data_type params = Some (data, Some (now + 300)) ∧
  fetched w' = fetched w ++ [(data_type, default ∅ params)] ∧
  access_log w' =
    take (Z.to_nat 10000)
      ({| log_wallet_address := wallet_address; log_data_type := data_type;
          log_params := params; log_timestamp := now |} :: access_log w).
Proof.
  intros Hcheck Hstake Hmiss Hfetch w'.
  destruct (fetch_raw_data_effect _ _ _ _ _ _ Hfetch) as (Hcache & Hlists & Hfetched).
  assert (get_raw_data self now wallet_address data_type params w =
    (data, _log_data_access now wallet_address data_type params
             {| cache := Redis.setex now (_generate_cache_key self data_type params)
                           cache_ttl data (cache w1);
                lists := lists w1; fetched := fetched w1 |})) as Hrun.
  { unfold get_raw_data. rewrite Hcheck.
    pose proof (check_access_level_levels _ _ _ Hcheck) as ->. cbn [raw_data_access levels].
    assert ((staked_amount info >=? 5000) = true) as -> by (apply Z.geb_le; lia).
    cbn [negb]. by rewrite Hmiss, Hfetch. }
  unfold w'. rewrite Hrun. cbn [fst snd].
  split; [done|]. split; [by unfold Redis.setex; cbn; rewrite lookup_insert_eq|].
  split; [done|].
  rewrite access_log_logged. unfold access_log; cbn [lists]. by rewrite Hlists.
Qed.

(** [get_analytics_data] never consults the token: for each of the three
    time frames and any metric its answer is the same for every wallet and
    every ledger state, namely the aggregate over the time frame (or the
    error the aggregation raised). *)
Theorem analytics_ignores_wallet ext token token' now wallet wallet' metric timeframe w :
  timeframe ∈ ["24h"; "7d"; "30d"] →
  get_analytics_data {| externals := ext; cynix_token := token |} now wallet metric timeframe w
    = get_analytics_data {| externals := ext; cynix_token := token' |} now wallet' metric timeframe w
  ∧ ∃ range,
      time_ranges !! timeframe = Some range ∧
      get_analytics_data {| externals := ext; cynix_token := token |} now wallet metric timeframe w
        = match _aggregate_metric {| externals := ext; cynix_token := token' |}
                  metric (now - range) now w with
          | Ok aggregated_data =>
            {[ "metric" := JStr metric; "timeframe" := JStr timeframe;
               "data" := JList aggregated_data ]}
          | Raise e => error_dict (exc_str e)
          end.
Proof.
  intros Hframe. split; [done|].
  assert (is_Some (time_ranges !! timeframe)) as [range Hrange].
  { rewrite !elem_of_cons in Hframe.
    destruct Hframe as [->|[->|[->|Hnil]]]; [by eexists..|by apply elem_of_nil in Hnil]. }
  exists range. split; [done|]. unfold get_analytics_data. by rewrite Hrange.
Qed.

(** On the object as the class makes it the aggregation never starts:
    [_aggregate_metric] calls [self._get_metric_data_points], which does
    not exist, and [get_analytics_data] returns the text of the
    [AttributeError] to every wallet. *)
Lemma analytics_as_shipped dumps token now wallet_address metric timeframe w :
  timeframe ∈ ["24h"; "7d"; "30d"] →
  get_analytics_data {| externals := shipped dumps; cynix_token := token |}
    now wallet_address metric timeframe w
  = error_dict "'DataAccessService' object has no attribute '_get_metric_data_points'".
Proof.
  intros Hframe.
  destruct (analytics_ignores_wallet (shipped dumps) token token now wallet_address
              wallet_address metric timeframe w Hframe) as (_ & range & _ & ->).
  reflexivity.
Qed.
End data_access.

Lemma analytics_ignores_wallet_witness :
  DataAccess.get_analytics_data (H:=Demo.starlette_str)
    (Demo.service Demo.empty_wallet) 0 "nobody" "volume" "24h" Demo.empty_world
  = DataAccess.get_analytics_data (H:=Demo.starlette_str)
      (Demo.service Demo.high_stake) 0 "staker" "volume" "24h" Demo.empty_world.
Proof.
  apply (analytics_ignores_wallet (H:=Demo.starlette_str) Demo.fetchers
           Demo.empty_wallet Demo.high_stake 0 "nobody" "staker" "volume" "24h" Demo.empty_world).
  apply list_elem_of_here.
Defined.

(** On an object that has the two analytics helpers, the wallet without
    tokens is refused raw data, yet served analytics. *)
Example empty_wallet_raw_denied_analytics_served :
  (DataAccess.get_raw_data (H:=Demo.starlette_str)
     (Demo.service Demo.empty_wallet) 0 "nobody" "github" None Demo.empty_world).1
    = error_dict "Insufficient token stake for raw data access" ∧
  DataAccess.get_analytics_data (H:=Demo.starlette_str)
    (Demo.service Demo.empty_wallet) 0 "nobody" "volume" "24h" Demo.empty_world
    = {[ "metric" := JStr "volume"; "timeframe" := JStr "24h"; "data" := JList [] ]}.
Proof. split; reflexivity. Qed.

(** C10 at a wallet without tokens and without stake, on the service as
    the repository has it: for each of the three time frames the answer is
    not the analytics data but the error dictionary of the [AttributeError]
    for [_get_metric_data_points], a method [_aggregate_metric] calls and
    the class does not define; a wallet with 6000 tokens staked is answered
    the same. *)
Theorem zero_token_wallet_gets_no_analytics :
  Token.check_access_level (H:=Demo.starlette_str) Demo.empty_wallet "nobody"
    = Token.AccessOk {| Token.total_tokens := 0; Token.staked_amount := 0;
                        Token.access_levels := Token.levels 0 0 |} ∧
  DataAccess.get_analytics_data (H:=Demo.starlette_str)
    (Demo.shipped_service Demo.empty_wallet) 0 "nobody" "volume" "24h" Demo.empty_world
    = error_dict "'DataAccessService' object has no attribute '_get_metric_data_points'" ∧
  DataAccess.get_analytics_data (H:=Demo.starlette_str)
    (Demo.shipped_service Demo.empty_wallet) 0 "nobody" "volume" "7d" Demo.empty_world
    = error_dict "'DataAccessService' object has no attribute '_get_metric_data_points'" ∧
  DataAccess.get_analytics_data (H:=Demo.starlette_str)
    (Demo.shipped_service Demo.empty_wallet) 0 "nobody" "volume" "30d" Demo.empty_world
    = error_dict "'DataAccessService' object has no attribute '_get_metric_data_points'" ∧
  DataAccess.get_analytics_data (H:=Demo.starlette_str)
    (Demo.shipped_service Demo.high_stake) 0 "staker" "volume" "24h" Demo.empty_world
    = error_dict "'DataAccessService' object has no attribute '_get_metric_data_points'".
Proof. repeat split; reflexivity. Qed.

(** C1 at a wallet with [total_tokens = 12000] and [staked_amount = 200]
    asking for [/api/v1/data/github]: nothing is fetched or cached, and the
    answer is status 500, the 403 raised in the route being caught by the
    route's own handler. *)
Theorem low_stake_request_answered_500 :
  Token.check_access_level (H:=Demo.starlette_str) Demo.low_stake "wallet"
    = Token.AccessOk {| Token.total_tokens := 12000; Token.staked_amount := 200;
                        Token.access_levels := Token.levels 12000 200 |} ∧
  Routes.get_data (H:=Demo.starlette_str)
    (Demo.service Demo.low_stake) 0 "github" "wallet" None Demo.empty_world
    = (Raise (HTTPException 500
                (JStr "403: Insufficient token stake for raw data access")),
       Demo.empty_world) ∧
  Routes.http_status
    (Routes.get_data (H:=Demo.starlette_str)
       (Demo.service Demo.low_stake) 0 "github" "wallet" None Demo.empty_world).1 = 500.
Proof. split; [reflexivity|]. split; [|reflexivity]. by vm_compute. Qed.

(** C2 at a wallet with [staked_amount = 6000] asking twice for the same
    data, at times 0 and 10: both calls return the payload, one fetcher call
    is made, and the access log holds one entry, the cached call leaving
    none. *)
Theorem cached_call_is_not_logged :
  let svc := Demo.service Demo.high_stake in
  let first :=
    DataAccess.get_raw_data (H:=Demo.starlette_str) svc 0 "wallet" "github" None
      Demo.empty_world in
  let second :=
    DataAccess.get_raw_data (H:=Demo.starlette_str) svc 10 "wallet" "github" None first.2 in
  first.1 = Demo.github_payload ∧
  second.1 = Demo.github_payload ∧
  length (DataAccess.fetched second.2) = 1%nat ∧
  length (DataAccess.access_log first.2) = 1%nat ∧
  length (DataAccess.access_log second.2) = 1%nat.
Proof. by vm_compute. Qed.

(** * Further properties *)

(** ** [check_access_level]: tiers, failures, account order *)
Section access_more.
Import Token.
Context `{StrHTTPException}.

Lemma int_from_bytes_little_nonneg bs : 0 ≤ int_from_bytes_little bs.
Proof.
  induction bs as [|b bs IH]; simpl; [done|].
  pose proof (Byte.to_N_bounded b). lia.
Qed.

Lemma staked_amount_range_of self pubkey :
  0 ≤ from_option amount 0 (_get_staking_info self pubkey) < 2 ^ 64.
Proof.
  unfold _get_staking_info.
  destruct (get_account_info _ _) as [[data|]|]; [|simpl; lia..].
  change (0 ≤ int_from_bytes_little (slice 0 (0 + 8) data) < 2 ^ 64).
  rewrite slice_field. apply le_field_range.
Qed.

(** The answer of [check_access_level] once the address parses and every
    token account is readable. *)
Lemma check_access_level_read self wallet_address pubkey balances :
  PublicKey_new (client self) wallet_address = Ok pubkey →
  get_token_accounts_by_owner (client self) pubkey (token_mint self) = Ok (Ok <$> balances) →
  check_access_level self wallet_address =
  let staked := from_option amount 0 (_get_staking_info self pubkey) in
  AccessOk {| total_tokens := foldr Z.add 0 balances + staked;
              staked_amount := staked;
              access_levels := levels (foldr Z.add 0 balances + staked) staked |}.
Proof.
  intros Hkey Haccounts. unfold check_access_level.
  rewrite Hkey, Haccounts, sum_balances_ok. simpl.
  by destruct (_get_staking_info self pubkey).
Qed.

Lemma foldr_add_nonneg balances : Forall (λ b, 0 ≤ b) balances → 0 ≤ foldr Z.add 0 balances.
Proof. induction 1; simpl; lia. Qed.

Lemma foldr_add_permutation (l l' : list Z) :
  l ≡ₚ l' → foldr Z.add 0 l = foldr Z.add 0 l'.
Proof. induction 1; simpl; lia. Qed.

Lemma sum_balances_first_failure good e rest acc :
  sum_balances ((Ok <$> good) ++ Raise e :: rest) acc = Raise e.
Proof. revert acc. induction good as [|b good IH]; intros acc; simpl; [done|apply IH]. Qed.

(** X1. The tiers are nested: governance access brings API access, API
    access brings alpha access, and, the balances being non-negative, raw
    data access brings alpha access too, the stake counting towards the
    total. *)
Theorem tiers_nested self wallet_address pubkey balances info :
  PublicKey_new (client self) wallet_address = Ok pubkey →
  get_token_accounts_by_owner (client self) pubkey (token_mint self) = Ok (Ok <$> balances) →
  Forall (λ b, 0 ≤ b) balances →
  check_access_level self wallet_address = AccessOk info →
  (governance_access (access_levels info) = true → api_access (access_levels info) = true) ∧
  (api_access (access_levels info) = true → alpha_access (access_levels info) = true) ∧
  (raw_data_access (access_levels info) = true → alpha_access (access_levels info) = true).
Proof.
  intros Hkey Haccounts Hpos Hcheck.
  rewrite (check_access_level_read _ _ _ _ Hkey Haccounts) in Hcheck.
  injection Hcheck as <-. simpl.
  pose proof (staked_amount_range_of self pubkey).
  pose proof (foldr_add_nonneg _ Hpos).
  rewrite !Z.geb_le. lia.
Qed.

(** X2. A staking account that is absent, or whose lookup raises, is no
    error: the wallet is reported with a stake of 0, its total is the sum
    of its balances, and raw data access is refused. *)
Theorem staking_unavailable_is_zero_stake self wallet_address pubkey balances :
  PublicKey_new (client self) wallet_address = Ok pubkey →
  get_token_accounts_by_owner (client self) pubkey (token_mint self) = Ok (Ok <$> balances) →
  (∀ data, get_account_info (client self) (_derive_staking_address self pubkey)
           ≠ Ok (Some data)) →
  check_access_level self wallet_address =
    AccessOk {| total_tokens := foldr Z.add 0 balances;
                staked_amount := 0;
                access_levels := levels (foldr Z.add 0 balances) 0 |} ∧
  raw_data_access (levels (foldr Z.add 0 balances) 0) = false.
Proof.
  intros Hkey Haccounts Hnone.
  rewrite (check_access_level_read _ _ _ _ Hkey Haccounts).
  assert (_get_staking_info self pubkey = None) as ->.
  { unfold _get_staking_info.
    destruct (get_account_info _ _) as [[data|]|] eqn:Hinfo; [|done..].
    by destruct (Hnone data). }
  simpl. by rewrite Z.add_0_r.
Qed.

(** X3. One token account whose amount cannot be read fails the whole
    check with that account's error: no partial total is reported, whatever
    the accounts before and after it hold. *)
Theorem unreadable_account_fails_check self wallet_address pubkey good e rest :
  PublicKey_new (client self) wallet_address = Ok pubkey →
  get_token_accounts_by_owner (client self) pubkey (token_mint self)
    = Ok ((Ok <$> good) ++ Raise e :: rest) →
  check_access_level self wallet_address = AccessError (exc_str e).
Proof.
  intros Hkey Haccounts. unfold check_access_level.
  by rewrite Hkey, Haccounts, sum_balances_first_failure.
Qed.

(** X4. The order in which the RPC lists the token accounts does not
    matter. *)
Theorem account_order_irrelevant self self' wallet_address pubkey balances balances' :
  PublicKey_new (client self) wallet_address = Ok pubkey →
  PublicKey_new (client self') wallet_address = Ok pubkey →
  get_token_accounts_by_owner (client self) pubkey (token_mint self) = Ok (Ok <$> balances) →
  get_token_accounts_by_owner (client self') pubkey (token_mint self') = Ok (Ok <$> balances') →
  _get_staking_info self pubkey = _get_staking_info self' pubkey →
  balances ≡ₚ balances' →
  check_access_level self wallet_address = check_access_level self' wallet_address.
Proof.
  intros Hkey Hkey' Haccounts Haccounts' Hstake Hperm.
  rewrite (check_access_level_read _ _ _ _ Hkey Haccounts).
  rewrite (check_access_level_read _ _ _ _ Hkey' Haccounts').
  rewrite Hstake.
  by rewrite (foldr_add_permutation _ _ Hperm).
Qed.

Lemma sum_balances_read accounts : ∀ acc total_balance,
  sum_balances accounts acc = Ok total_balance →
  ∃ balances, accounts = Ok <$> balances ∧ total_balance = acc + foldr Z.add 0 balances.
Proof.
  induction accounts as [|[balance|e] accounts IH]; intros acc total_balance Hsum;
    cbn [sum_balances] in Hsum; [|..|done].
  - injection Hsum as <-. exists []. split; [done|]. simpl. lia.
  - destruct (IH _ _ Hsum) as (balances & -> & ->).
    exists (balance :: balances). split; [done|]. simpl. lia.
Qed.

(** X5. A check that succeeds has read everything: the address parsed,
    every token account listed for it had a readable amount, the reported
    total is the sum of those amounts plus the reported stake, and the
    stake, whatever the ledger answers, is an unsigned 64-bit number. *)
Theorem staked_amount_range self wallet_address info :
  check_access_level self wallet_address = AccessOk info →
  0 ≤ staked_amount info < 2 ^ 64 ∧
  ∃ pubkey balances,
    PublicKey_new (client self) wallet_address = Ok pubkey ∧
    get_token_accounts_by_owner (client self) pubkey (token_mint self)
      = Ok (Ok <$> balances) ∧
    staked_amount info = from_option amount 0 (_get_staking_info self pubkey) ∧
    total_tokens info = foldr Z.add 0 balances + staked_amount info.
Proof.
  unfold check_access_level.
  destruct (PublicKey_new _ _) as [pubkey|]; [|done].
  destruct (get_token_accounts_by_owner _ _ _) as [accounts|] eqn:Haccounts; [|done].
  destruct (sum_balances _ _) as [total_balance|] eqn:Hsum; [|done].
  intros [= <-]. cbn [staked_amount total_tokens].
  pose proof (staked_amount_range_of self pubkey) as Hrange.
  destruct (sum_balances_read _ _ _ Hsum) as (balances & -> & ->).
  split; [by destruct (_get_staking_info self pubkey)|].
  exists pubkey, balances. split; [done|]. split; [done|].
  split; [by destruct (_get_staking_info self pubkey)|]. lia.
Qed.
End access_more.

Lemma tiers_nested_witness :
  Token.alpha_access (Token.levels 12000 6000) = true.
Proof.
  destruct (tiers_nested (H:=Demo.starlette_str) Demo.high_stake "wallet" "wallet" [6000]
              {| Token.total_tokens := 12000; Token.staked_amount := 6000;
                 Token.access_levels := Token.levels 12000 6000 |})
    as (_ & _ & Hraw).
  - reflexivity.
  - reflexivity.
  - repeat constructor. lia.
  - reflexivity.
  - apply Hraw. reflexivity.
Defined.

Lemma staking_unavailable_is_zero_stake_witness :
  Token.check_access_level (H:=Demo.starlette_str) Demo.staking_rpc_down "wallet"
    = Token.AccessOk {| Token.total_tokens := foldr Z.add 0 [7000];
                        Token.staked_amount := 0;
                        Token.access_levels := Token.levels (foldr Z.add 0 [7000]) 0 |} ∧
  Token.raw_data_access (Token.levels (foldr Z.add 0 [7000]) 0) = false.
Proof.
  apply (staking_unavailable_is_zero_stake (H:=Demo.starlette_str)
           Demo.staking_rpc_down "wallet" "wallet" [7000]).
  - reflexivity.
  - reflexivity.
  - intros data. discriminate.
Defined.

Lemma unreadable_account_fails_check_witness :
  Token.check_access_level (H:=Demo.starlette_str) Demo.broken_account "wallet"
    = Token.AccessError "invalid literal for int()".
Proof.
  apply (unreadable_account_fails_check (H:=Demo.starlette_str) Demo.broken_account
           "wallet" "wallet" [100] (PyError ValueError "invalid literal for int()") [Ok 5]).
  - reflexivity.
  - reflexivity.
Defined.

Lemma account_order_irrelevant_witness :
  Token.check_access_level (H:=Demo.starlette_str) (Demo.token [100; 950] None) "wallet"
  = Token.check_access_level (H:=Demo.starlette_str) (Demo.token [950; 100] None) "wallet".
Proof.
  apply (account_order_irrelevant (H:=Demo.starlette_str)
           (Demo.token [100; 950] None) (Demo.token [950; 100] None)
           "wallet" "wallet" [100; 950] [950; 100]).
  - reflexivity.
  - reflexivity.
  - reflexivity.
  - reflexivity.
  - reflexivity.
  - apply Permutation_swap.
Defined.

Lemma staked_amount_range_witness :
  0 ≤ 200 < 2 ^ 64 ∧
  ∃ pubkey balances,
    Token.PublicKey_new (Token.client Demo.low_stake) "wallet" = Ok pubkey ∧
    Token.get_token_accounts_by_owner (Token.client Demo.low_stake) pubkey
      (Token.token_mint Demo.low_stake) = Ok (Ok <$> balances) ∧
    200 = from_option Token.amount 0 (Token._get_staking_info Demo.low_stake pubkey) ∧
    12000 = foldr Z.add 0 balances + 200.
Proof.
  apply (staked_amount_range (H:=Demo.starlette_str) Demo.low_stake "wallet"
           {| Token.total_tokens := 12000; Token.staked_amount := 200;
              Token.access_levels := Token.levels 12000 200 |}).
  reflexivity.
Defined.

(** ** [_parse_staking_data]: what it reads and what it ignores *)
Section staking_more.
Import Token.

Lemma length_int_to_bytes_little n z : length (int_to_bytes_little n z) = n.
Proof. revert z. induction n as [|n IH]; intros z; simpl; [done|by rewrite IH]. Qed.

Lemma byte_of_N_value z :
  0 ≤ z < 256 →
  Z.of_N (Byte.to_N (default Byte.x00 (Byte.of_N (Z.to_N z)))) = z.
Proof.
  intros Hz. destruct (Byte.of_N (Z.to_N z)) as [b|] eqn:Hb.
  - apply Byte.to_of_N in Hb. simpl. rewrite Hb. lia.
  - apply Byte.of_N_None_iff in Hb. lia.
Qed.

Lemma int_from_to_bytes_little n z :
  int_from_bytes_little (int_to_bytes_little n z) = z `mod` 256 ^ Z.of_nat n.
Proof.
  revert z. induction n as [|n IH]; intros z.
  - simpl. by rewrite Z.mod_1_r.
  - cbn [int_to_bytes_little int_from_bytes_little].
    rewrite IH, byte_of_N_value by (apply Z.mod_pos_bound; lia).
    rewrite Nat2Z.inj_succ, Z.pow_succ_r by lia.
    rewrite Z.rem_mul_r by lia. done.
Qed.

Lemma slice_app_ignore {A} (l extra : list A) lo hi :
  (hi ≤ length l)%nat → slice lo hi (l ++ extra) = slice lo hi l.
Proof.
  intros Hhi. unfold slice. destruct (decide (lo ≤ hi)%nat) as [Hle|Hgt].
  - rewrite drop_app_le by lia. rewrite take_app_le; [done|]. rewrite length_drop. lia.
  - by replace (hi - lo)%nat with 0%nat by lia.
Qed.

(** X6. Only the first 24 bytes of a staking account are read: whatever
    follows them does not change the decoded record. *)
Theorem parse_staking_data_ignores_tail (data extra : list Byte.byte) :
  (24 ≤ length data)%nat →
  _parse_staking_data (data ++ extra) = _parse_staking_data data.
Proof.
  intros Hlen. unfold _parse_staking_data.
  by rewrite !slice_app_ignore by lia.
Qed.

(** X7. Decoding inverts the layout: three unsigned 64-bit numbers written
    little-endian one after the other, followed by anything, are read back
    as they were written. *)
Theorem parse_staking_data_round_trip (a s l : Z) (extra : list Byte.byte) :
  0 ≤ a < 2 ^ 64 → 0 ≤ s < 2 ^ 64 → 0 ≤ l < 2 ^ 64 →
  _parse_staking_data
    (int_to_bytes_little 8 a ++ int_to_bytes_little 8 s ++ int_to_bytes_little 8 l ++ extra)
  = {| amount := a; start_time := s; last_claim := l |}.
Proof.
  intros Ha Hs Hl. unfold _parse_staking_data, slice.
  change (8 - 0)%nat with 8%nat. change (16 - 8)%nat with 8%nat.
  change (24 - 16)%nat with 8%nat. rewrite drop_0.
  pose proof (length_int_to_bytes_little 8 a) as Hla.
  pose proof (length_int_to_bytes_little 8 s) as Hls.
  pose proof (length_int_to_bytes_little 8 l) as Hll.
  f_equal.
  - rewrite take_app_length' by done.
    rewrite int_from_to_bytes_little. apply Z.mod_small. done.
  - rewrite drop_app_length' by done. rewrite take_app_length' by done.
    rewrite int_from_to_bytes_little. apply Z.mod_small. done.
  - replace 16%nat with (8 + 8)%nat by done. rewrite <- drop_drop.
    rewrite drop_app_length' by done. rewrite drop_app_length' by done.
    rewrite take_app_length' by done.
    rewrite int_from_to_bytes_little. apply Z.mod_small. done.
Qed.
End staking_more.

Lemma parse_staking_data_ignores_tail_witness :
  Token._parse_staking_data (Demo.staking_account Byte.xc8 Byte.x00 ++ [Byte.xff])
  = Token._parse_staking_data (Demo.staking_account Byte.xc8 Byte.x00).
Proof.
  apply (parse_staking_data_ignores_tail (Demo.staking_account Byte.xc8 Byte.x00) [Byte.xff]).
  simpl. lia.
Defined.

Lemma parse_staking_data_round_trip_witness :
  Token._parse_staking_data
    (int_to_bytes_little 8 6000 ++ int_to_bytes_little 8 1700000000
       ++ int_to_bytes_little 8 1700000600 ++ [])
  = {| Token.amount := 6000; Token.start_time := 1700000000;
       Token.last_claim := 1700000600 |}.
Proof.
  apply (parse_staking_data_round_trip 6000 1700000000 1700000600 []); lia.
Defined.

(** ** The rate limiter's keys, isolation between clients, expiry *)
Section rate_limiter_more.
Import Middleware.
Implicit Types redis : gmap string (Z * option Z).

Lemma has_colon_pretty_N_go x s : has_colon (pretty_N_go x s) = has_colon s.
Proof.
  revert s. induction (N.lt_wf_0 x) as [x _ IH]; intros s.
  assert (x = 0 ∨ 0 < x)%N as [->|Hpos] by lia.
  - by rewrite pretty_N_go_0.
  - rewrite pretty_N_go_step by done. rewrite IH by (by apply N.div_lt).
    simpl. unfold pretty_N_char. by repeat case_match.
Qed.

Lemma has_colon_pretty_N (x : N) : has_colon (pretty x) = false.
Proof.
  unfold pretty, pretty_N. case_decide; [done|]. by rewrite has_colon_pretty_N_go.
Qed.

Lemma has_colon_pretty_Z (z : Z) : has_colon (pretty z) = false.
Proof.
  destruct z as [|p|p]; [done|apply (has_colon_pretty_N (N.pos p))|].
  unfold pretty, pretty_Z. change (has_colon (String "-" (pretty p)) = false).
  simpl. apply (has_colon_pretty_N (N.pos p)).
Qed.

Lemma has_colon_app_colon s p : has_colon (s +:+ ":" +:+ p) = true.
Proof.
  induction s as [|c s IH]; [done|].
  change (bool_decide (c = ":"%char) || has_colon (s +:+ ":" +:+ p) = true).
  rewrite IH. apply orb_true_r.
Qed.

(** A key splits in one way only at the colon before its window number. *)
Lemma colon_split_inj s1 : ∀ s2 p1 p2,
  has_colon p1 = false → has_colon p2 = false →
  s1 +:+ ":" +:+ p1 = s2 +:+ ":" +:+ p2 → s1 = s2 ∧ p1 = p2.
Proof.
  induction s1 as [|c s1 IH]; intros [|c' s2] p1 p2 Hp1 Hp2 Heq.
  - change (String ":" p1 = String ":" p2) in Heq. by injection Heq.
  - change (String ":" p1 = String c' (s2 +:+ ":" +:+ p2)) in Heq.
    injection Heq as _ ->. by rewrite has_colon_app_colon in Hp1.
  - change (String c (s1 +:+ ":" +:+ p1) = String ":" p2) in Heq.
    injection Heq as _ <-. by rewrite has_colon_app_colon in Hp2.
  - change (String c (s1 +:+ ":" +:+ p1) = String c' (s2 +:+ ":" +:+ p2)) in Heq.
    injection Heq as -> Heq. by destruct (IH _ _ _ Hp1 Hp2 Heq) as [-> ->].
Qed.

Lemma window_key_eq cid1 t1 cid2 t2 :
  window_key cid1 t1 = window_key cid2 t2 →
  cid1 = cid2 ∧ t1 `div` window = t2 `div` window.
Proof.
  unfold window_key. intros Heq. apply String.app_inj in Heq.
  apply colon_split_inj in Heq as [-> Heq]; [|apply has_colon_pretty_Z..].
  split; [done|]. by apply pretty_Z_inj in Heq.
Qed.

(** X8. Two requests share a counter exactly when they come from the same
    client in the same window: no client identifier, whatever characters it
    holds, can reach the counter of another client or window. *)
Theorem window_key_inj cid1 t1 cid2 t2 :
  window_key cid1 t1 = window_key cid2 t2 ↔
  cid1 = cid2 ∧ t1 `div` window = t2 `div` window.
Proof.
  split; [apply window_key_eq|]. intros [-> Hwin]. unfold window_key. by rewrite Hwin.
Qed.

(** X9. The traffic of other clients, and of this client in other windows,
    leaves this client's count, and so its admission, as they were. *)
Theorem rate_limiter_isolation call_next request current others redis :
  Forall (λ rt, client_id rt.1 ≠ client_id request
                ∨ rt.2 `div` window ≠ current `div` window) others →
  request_count request current (serve call_next others redis).2
    = request_count request current redis ∧
  (admits request current (serve call_next others redis).2 ↔ admits request current redis).
Proof.
  intros Hothers.
  assert (request_count request current (serve call_next others redis).2
          = request_count request current redis) as Hcount.
  { rewrite !request_count_previous. unfold Redis.get. rewrite serve_frame; [done|].
    eapply Forall_impl; [exact Hothers|]. intros [r t] Hrt Heq; simpl in *.
    apply window_key_eq in Heq as [Hcid Hwin]. by destruct Hrt. }
  split; [done|]. by rewrite !admits_iff, Hcount.
Qed.

Lemma dispatch_keeps_expiry call_next cid t0 n e request current redis :
  1 ≤ n →
  redis !! window_key cid t0 = Some (n, Some e) →
  current < e →
  client_id request = cid →
  current `div` window = t0 `div` window →
  (dispatch call_next request current redis).2 !! window_key cid t0 = Some (n + 1, Some e).
Proof.
  intros Hn Hlook Hlive Hcid Hwin.
  pose proof (window_key_same cid request current t0 Hcid Hwin) as Hkey.
  assert (request_count request current redis = n + 1) as Hcount.
  { rewrite request_count_previous, Hkey. unfold Redis.get. rewrite Hlook. simpl.
    by assert ((current <=? e) = true) as -> by (apply Z.leb_le; lia). }
  destruct (dispatch_store call_next request current redis) as ((e' & Hlook' & _ & Hmore) & _ & _).
  rewrite Hkey, Hcount in Hlook'. rewrite Hkey, Hcount in Hmore.
  destruct Hmore as (m & Hm); [lia|]. rewrite Hlook in Hm. by injection Hm as _ <-.
Qed.

Lemma serve_keeps_expiry call_next cid t0 e requests : ∀ n redis,
  1 ≤ n →
  redis !! window_key cid t0 = Some (n, Some e) →
  Forall (λ rt, client_id rt.1 = cid ∧ rt.2 `div` window = t0 `div` window ∧ rt.2 < e)
    requests →
  (serve call_next requests redis).2 !! window_key cid t0
    = Some (n + Z.of_nat (length requests), Some e).
Proof.
  induction requests as [|[request current] requests IH]; intros n redis Hn Hlook Hall.
  - simpl. by rewrite Z.add_0_r.
  - apply Forall_cons in Hall as [(Hcid & Hwin & Hlive) Hall]; simpl in Hcid, Hwin, Hlive.
    rewrite serve_cons; simpl snd.
    rewrite (IH (n + 1)); [f_equal; f_equal; simpl length; lia|lia| |done].
    by apply dispatch_keeps_expiry.
Qed.

Lemma same_window_within t t0 : t `div` window = t0 `div` window → t < t0 + window.
Proof.
  unfold window. intros Hwin.
  pose proof (Z.div_mod t 60). pose proof (Z.mod_pos_bound t 60).
  pose proof (Z.div_mod t0 60). pose proof (Z.mod_pos_bound t0 60). lia.
Qed.

(** X10. The counter of a window lives for 60 seconds from the window's
    first request, and later requests of the window do not prolong it: up
    to and at [t0 + 60] it reads the number of requests made, after that
    instant it is gone. *)
Theorem window_counter_expires call_next cid request0 t0 rest redis t :
  redis !! window_key cid t0 = None →
  client_id request0 = cid →
  Forall (λ rt, client_id rt.1 = cid ∧ rt.2 `div` window = t0 `div` window) rest →
  Redis.get t (window_key cid t0) (serve call_next ((request0, t0) :: rest) redis).2
    = if decide (t ≤ t0 + 60) then Some (Z.of_nat (S (length rest))) else None.
Proof.
  intros Hfresh Hcid Hrest.
  assert ((serve call_next ((request0, t0) :: rest) redis).2 !! window_key cid t0
          = Some (Z.of_nat (S (length rest)), Some (t0 + 60))) as Hlook.
  { rewrite serve_cons; simpl snd.
    rewrite (serve_keeps_expiry call_next cid t0 (t0 + 60) rest 1); [f_equal; f_equal; lia|lia| |].
    - destruct (dispatch_store call_next request0 t0 redis) as ((e & Hlook & Hone & _) & _ & _).
      assert (request_count request0 t0 redis = 1) as Hcount.
      { rewrite request_count_previous, Hcid. unfold Redis.get. by rewrite Hfresh. }
      rewrite Hcid, Hcount in Hlook. rewrite Hcount in Hone. by rewrite (Hone eq_refl) in Hlook.
    - eapply Forall_impl; [exact Hrest|]. intros [r u] [Hr Hu]; simpl in *.
      split; [done|]. split; [done|]. by apply same_window_within. }
  unfold Redis.get. rewrite Hlook. simpl.
  destruct (decide (t ≤ t0 + 60)) as [Hlt|Hge].
  - by assert ((t <=? t0 + 60) = true) as -> by by apply Z.leb_le.
  - by assert ((t <=? t0 + 60) = false) as -> by (apply Z.leb_gt; lia).
Qed.
End rate_limiter_more.

Lemma rate_limiter_isolation_witness :
  Middleware.request_count Demo.request 30
    (Middleware.serve Demo.app [(Demo.other_request, 30); (Demo.request, 200)] ∅).2
    = Middleware.request_count Demo.request 30 ∅ ∧
  (Middleware.admits Demo.request 30
     (Middleware.serve Demo.app [(Demo.other_request, 30); (Demo.request, 200)] ∅).2
   ↔ Middleware.admits Demo.request 30 ∅).
Proof.
  apply (rate_limiter_isolation Demo.app Demo.request 30
           [(Demo.other_request, 30); (Demo.request, 200)] ∅).
  constructor; [left; vm_compute; discriminate|].
  constructor; [right; vm_compute; discriminate|].
  constructor.
Defined.

Lemma window_counter_expires_witness :
  Redis.get 90 (Middleware.window_key "key-1" 30)
    (Middleware.serve Demo.app [(Demo.request, 30); (Demo.request, 45)] ∅).2
  = if decide (90 ≤ 30 + 60) then Some (Z.of_nat 2) else None.
Proof.
  apply (window_counter_expires Demo.app "key-1" Demo.request 30 [(Demo.request, 45)] ∅ 90).
  - reflexivity.
  - reflexivity.
  - repeat constructor.
Defined.

(** ** [get_api_usage] and [RequestLogger] *)
Section usage.
Import Middleware.
Context `{StrHTTPException} {J : JsonModule}.

Lemma usage_loop_cons api_key now current_window counters minute minutes acc :
  usage_loop api_key now current_window counters (minute :: minutes) acc =
  usage_loop api_key now current_window counters minutes
    (match Redis.get now ("ratelimit:" +:+ api_key +:+ ":"
                          +:+ pretty (current_window - Z.of_nat minute)) counters with
     | Some count => acc + count
     | None => acc
     end).
Proof. reflexivity. Qed.

Lemma usage_loop_absent api_key now current_window counters minutes : ∀ acc,
  Forall (λ minute,
            Redis.get now ("ratelimit:" +:+ api_key +:+ ":"
                           +:+ pretty (current_window - Z.of_nat minute)) counters = None)
         minutes →
  usage_loop api_key now current_window counters minutes acc = acc.
Proof.
  induction minutes as [|minute minutes IH]; intros acc Hall; [done|].
  apply Forall_cons in Hall as [Hnone Hall].
  rewrite usage_loop_cons, Hnone. by apply IH.
Qed.

Lemma get_api_usage_empty_log api_key now counters logs :
  request_log logs = [] →
  get_api_usage api_key now counters logs =
  Ok {| hourly_usage := usage_loop api_key now (now `div` 60) counters (0%nat :: seq 1 59) 0;
        total_requests := 0;
        usage_rate_limit := 100;
        remaining :=
          Z.max 0 (100 - usage_loop api_key now (now `div` 60) counters
                           (0%nat :: seq 1 59) 0) |}.
Proof. intros Hempty. unfold get_api_usage. rewrite Hempty. reflexivity. Qed.

Lemma get_api_usage_counted api_key now counters logs n :
  count_requests api_key (request_log logs) 0 = Ok n →
  get_api_usage api_key now counters logs =
  Ok {| hourly_usage := usage_loop api_key now (now `div` 60) counters (0%nat :: seq 1 59) 0;
        total_requests := n;
        usage_rate_limit := 100;
        remaining :=
          Z.max 0 (100 - usage_loop api_key now (now `div` 60) counters
                           (0%nat :: seq 1 59) 0) |}.
Proof. intros Hcount. unfold get_api_usage. rewrite Hcount. reflexivity. Qed.

(** X11. With an empty request log, the usage reported for an API key
    counts every request the rate limiter has seen from it in the current
    window, those it turned away included: after [n] requests in a window,
    and no counter for the key before, [hourly_usage] is [n] and
    [remaining] is [max(0, 100 - n)]. *)
Theorem api_usage_counts_every_request call_next api_key now requests counters logs :
  request_log logs = [] →
  (∀ w : Z, counters !! ("ratelimit:" +:+ api_key +:+ ":" +:+ pretty w) = None) →
  Forall (λ rt, client_id rt.1 = api_key ∧ rt.2 `div` window = now `div` window) requests →
  get_api_usage api_key now (serve call_next requests counters).2 logs =
  Ok {| hourly_usage := Z.of_nat (length requests);
        total_requests := 0;
        usage_rate_limit := 100;
        remaining := Z.max 0 (100 - Z.of_nat (length requests)) |}.
Proof.
  intros Hempty Hfresh Hall.
  rewrite get_api_usage_empty_log by done.
  cut (usage_loop api_key now (now `div` 60) (serve call_next requests counters).2
         (0%nat :: seq 1 59) 0 = Z.of_nat (length requests)).
  { intros ->. done. }
  rewrite usage_loop_cons, usage_loop_absent.
  - change (Z.of_nat 0) with 0. rewrite Z.sub_0_r.
    change ("ratelimit:" +:+ api_key +:+ ":" +:+ pretty (now `div` 60))
      with (window_key api_key now).
    pose proof (serve_window_state call_next api_key now requests 0 counters) as Hstate.
    unfold window_state in Hstate.
    destruct (decide (0 = 0)); [|done].
    specialize (Hstate ltac:(lia) (Hfresh _) Hall).
    rewrite Z.add_0_l in Hstate. unfold Redis.get.
    destruct (decide (Z.of_nat (length requests) = 0)) as [Hzero|Hpos].
    + rewrite Hstate. lia.
    + destruct Hstate as (expiry & -> & Hexpiry).
      pose proof (Z.div_mod now 60). pose proof (Z.mod_pos_bound now 60).
      unfold window in Hexpiry. unfold Redis.live.
      assert ((now <=? expiry) = true) as -> by (apply Z.leb_le; lia). lia.
  - apply Forall_forall. intros minute Hin.
    apply elem_of_seq in Hin. unfold Redis.get.
    rewrite serve_frame; [by rewrite Hfresh|].
    eapply Forall_impl; [exact Hall|]. intros [r t] [Hr Ht] Heq.
    cbn [fst snd] in Hr, Ht, Heq.
    unfold window_key in Heq. rewrite Hr in Heq. do 3 apply String.app_inj in Heq.
    apply pretty_Z_inj in Heq. unfold window in *. lia.
Qed.

Lemma count_requests_shift api_key logs : ∀ acc n d,
  count_requests api_key logs acc = Ok n →
  count_requests api_key logs (acc + d) = Ok (n + d).
Proof.
  induction logs as [|log logs IH]; intros acc n d Hcount; cbn [count_requests] in *.
  - by injection Hcount as <-.
  - destruct (json_loads log) as [log_data|e]; [|done].
    destruct (decide (entry_api_key log_data = api_key)).
    + replace (acc + d + 1) with (acc + 1 + d) by lia. by apply IH.
    + by apply IH.
Qed.

Lemma request_log_push line redis :
  request_log (Redis.ltrim request_logs 0 9999 (Redis.lpush request_logs line redis))
  = take (Z.to_nat 10000) (line :: request_log redis).
Proof.
  unfold request_log, Redis.ltrim, Redis.lpush. by rewrite !lookup_insert_eq.
Qed.

(** X13. A request that [RequestLogger] logs is counted by [get_api_usage]
    for its own API key (for ["none"] when it carries no key) and for no
    other: when [json.dumps] returns a line for the entry and [json.loads]
    reads the entry's key back from it, the response is handed on as it is
    and, the log not being full, [total_requests] of a key grows by one if
    the key is the request's and stays as it was otherwise. *)
Theorem logged_request_counted call_next request method path start_time end_time redis
    response line loaded api_key now counters n :
  call_next request = Ok response →
  json_dumps (log_entry request response method path start_time end_time) = Ok line →
  json_loads line = Ok loaded →
  entry_api_key loaded = default "none" (request_headers request !! "X-API-Key") →
  count_requests api_key (request_log redis) 0 = Ok n →
  Z.of_nat (length (request_log redis)) < 10000 →
  let '(outcome, redis') :=
    logger_dispatch call_next request method path start_time end_time redis in
  outcome = Ok response ∧
  ∃ usage,
    get_api_usage api_key now counters redis' = Ok usage ∧
    total_requests usage
    = n + (if decide (default "none" (request_headers request !! "X-API-Key") = api_key)
           then 1 else 0).
Proof.
  intros Hnext Hdumps Hloads Hkey Hcount Hroom.
  unfold logger_dispatch. rewrite Hnext, Hdumps. split; [done|].
  assert (count_requests api_key
            (request_log (Redis.ltrim request_logs 0 9999
                            (Redis.lpush request_logs line redis))) 0
          = Ok (n + (if decide (default "none" (request_headers request !! "X-API-Key")
                                = api_key) then 1 else 0))) as Hcount'.
  { rewrite request_log_push, take_ge by (cbn [length]; lia).
    cbn [count_requests]. rewrite Hloads, Hkey.
    destruct (decide (_ = api_key)).
    - by apply (count_requests_shift _ _ 0 n 1).
    - rewrite Z.add_0_r. done. }
  rewrite (get_api_usage_counted _ _ _ _ _ Hcount').
  eexists. split; [reflexivity|].
  set (hourly := usage_loop _ _ _ _ _ _). by clearbody hourly.
Qed.

Lemma dispatch_expiry_bounded call_next request current redis :
  expiry_bounded redis → expiry_bounded (dispatch call_next request current redis).2.
Proof.
  intros Hinv cid t n oe Hlook.
  destruct (dispatch_store call_next request current redis)
    as ((e & Hlook' & Hone & Hmore) & _ & Hframe).
  destruct (decide (window_key cid t = window_key (client_id request) current)) as [Heq|Hne].
  - rewrite Heq, Hlook' in Hlook. injection Hlook as _ <-.
    apply window_key_eq in Heq as [_ Hwin].
    destruct (decide (request_count request current redis = 1)) as [Hfirst|Hlater].
    + exists (current + window). split; [by apply Hone|].
      rewrite Hwin. unfold window.
      pose proof (Z.div_mod current 60). pose proof (Z.mod_pos_bound current 60). lia.
    + destruct (Hmore Hlater) as (m & Hm).
      apply (Hinv (client_id request) current) in Hm. by rewrite Hwin.
  - rewrite Hframe in Hlook by done. by apply Hinv in Hlook.
Qed.

Lemma serve_expiry_bounded call_next requests : ∀ redis,
  expiry_bounded redis → expiry_bounded (serve call_next requests redis).2.
Proof.
  induction requests as [|[request current] requests IH]; intros redis Hinv; [done|].
  rewrite serve_cons; cbn [snd]. by apply IH, dispatch_expiry_bounded.
Qed.

Lemma usage_key api_key w :
  "ratelimit:" +:+ api_key +:+ ":" +:+ pretty w = window_key api_key (w * window).
Proof. unfold window_key, window. by rewrite Z.div_mul. Qed.

Lemma expired_counter_unread redis api_key now (minute : nat) :
  expiry_bounded redis →
  (2 ≤ minute)%nat →
  Redis.get now ("ratelimit:" +:+ api_key +:+ ":"
                 +:+ pretty (now `div` 60 - Z.of_nat minute)) redis = None.
Proof.
  intros Hinv Hminute. rewrite usage_key. unfold Redis.get.
  destruct (redis !! _) as [[n oe]|] eqn:Hlook; [|done].
  apply Hinv in Hlook as (e & -> & He). unfold window in He. rewrite Z.div_mul in He by done.
  pose proof (Z.div_mod now 60). pose proof (Z.mod_pos_bound now 60).
  cbn [Redis.live]. by assert ((now <=? e) = false) as -> by (apply Z.leb_gt; lia).
Qed.

(** X15. [get_api_usage] adds up the counters of sixty windows, but a
    counter is gone 60 seconds after the first request of its window, so
    whatever traffic the rate limiter has served, [hourly_usage] is the
    live count of the current window plus that of the window before it:
    it never reports a request older than two minutes. *)
Theorem hourly_usage_is_two_minutes call_next requests api_key now logs :
  request_log logs = [] →
  let counters := (serve call_next requests ∅).2 in
  let current := default 0 (Redis.get now (window_key api_key now) counters) in
  let previous := default 0 (Redis.get now (window_key api_key (now - 60)) counters) in
  get_api_usage api_key now counters logs =
  Ok {| hourly_usage := current + previous;
        total_requests := 0;
        usage_rate_limit := 100;
        remaining := Z.max 0 (100 - (current + previous)) |}.
Proof.
  intros Hempty counters current previous.
  assert (expiry_bounded counters) as Hinv.
  { apply serve_expiry_bounded. intros cid t n oe Hlook. by rewrite lookup_empty in Hlook. }
  rewrite get_api_usage_empty_log by done.
  cut (usage_loop api_key now (now `div` 60) counters (0%nat :: seq 1 59) 0
       = current + previous).
  { intros ->. done. }
  change (seq 1 59) with (1%nat :: seq 2 58).
  rewrite !usage_loop_cons, usage_loop_absent.
  - assert ("ratelimit:" +:+ api_key +:+ ":" +:+ pretty (now `div` 60 - Z.of_nat 0)
            = window_key api_key now) as ->.
    { unfold window_key, window. by rewrite Z.sub_0_r. }
    assert ("ratelimit:" +:+ api_key +:+ ":" +:+ pretty (now `div` 60 - Z.of_nat 1)
            = window_key api_key (now - 60)) as ->.
    { unfold window_key, window.
      replace (now - 60) with (now + (-1) * 60) by lia. rewrite Z.div_add by done.
      by replace (now `div` 60 + -1) with (now `div` 60 - Z.of_nat 1) by lia. }
    unfold current, previous.
    destruct (Redis.get now (window_key api_key now) _);
      destruct (Redis.get now (window_key api_key (now - 60)) _); simpl; lia.
  - apply Forall_forall. intros minute Hin. apply elem_of_seq in Hin.
    apply expired_counter_unread; [done|lia].
Qed.
End usage.

Lemma api_usage_counts_every_request_witness :
  Middleware.get_api_usage (H:=Demo.starlette_str) (J:=Middleware.unbound_json) "key-1" 130
    (Middleware.serve Demo.app [(Demo.request, 125); (Demo.request, 130)] ∅).2 ∅ =
  Ok {| Middleware.hourly_usage := Z.of_nat 2;
        Middleware.total_requests := 0;
        Middleware.usage_rate_limit := 100;
        Middleware.remaining := Z.max 0 (100 - Z.of_nat 2) |}.
Proof.
  apply (api_usage_counts_every_request (H:=Demo.starlette_str) (J:=Middleware.unbound_json)
           Demo.app "key-1" 130
           [(Demo.request, 125); (Demo.request, 130)] ∅ ∅).
  - reflexivity.
  - intros w. apply lookup_empty.
  - constructor; [split; reflexivity|]. constructor; [split; reflexivity|]. constructor.
Defined.

Lemma logged_request_counted_witness :
  let '(outcome, redis') :=
    Middleware.logger_dispatch (J:=Demo.key_json) Demo.app Demo.request
      "GET" "/api/v1/data/github" 100 101 ∅ in
  outcome = Ok {| Middleware.status_code := 200; Middleware.response_headers := ∅;
                  Middleware.body := JNull |} ∧
  ∃ usage,
    Middleware.get_api_usage (H:=Demo.starlette_str) (J:=Demo.key_json) "key-1" 130 ∅ redis'
      = Ok usage ∧
    Middleware.total_requests usage
    = 0 + (if decide (default "none"
                        (Middleware.request_headers Demo.request !! "X-API-Key") = "key-1")
           then 1 else 0).
Proof.
  apply (logged_request_counted (H:=Demo.starlette_str) (J:=Demo.key_json) Demo.app
           Demo.request "GET" "/api/v1/data/github" 100 101 ∅
           {| Middleware.status_code := 200; Middleware.response_headers := ∅;
              Middleware.body := JNull |}
           "key-1" (Demo.entry_of_key "key-1") "key-1" 130 ∅ 0).
  - reflexivity.
  - reflexivity.
  - reflexivity.
  - reflexivity.
  - reflexivity.
  - vm_compute. reflexivity.
Defined.

Lemma hourly_usage_is_two_minutes_witness :
  Middleware.get_api_usage (H:=Demo.starlette_str) (J:=Middleware.unbound_json) "key-1" 130
    (Middleware.serve Demo.app [(Demo.request, 70); (Demo.request, 125)] ∅).2 ∅ =
  Ok {| Middleware.hourly_usage :=
          default 0 (Redis.get 130 (Middleware.window_key "key-1" 130)
                       (Middleware.serve Demo.app [(Demo.request, 70); (Demo.request, 125)] ∅).2)
          + default 0 (Redis.get 130 (Middleware.window_key "key-1" (130 - 60))
                         (Middleware.serve Demo.app
                            [(Demo.request, 70); (Demo.request, 125)] ∅).2);
        Middleware.total_requests := 0;
        Middleware.usage_rate_limit := 100;
        Middleware.remaining :=
          Z.max 0 (100 -
            (default 0 (Redis.get 130 (Middleware.window_key "key-1" 130)
                          (Middleware.serve Demo.app
                             [(Demo.request, 70); (Demo.request, 125)] ∅).2)
             + default 0 (Redis.get 130 (Middleware.window_key "key-1" (130 - 60))
                            (Middleware.serve Demo.app
                               [(Demo.request, 70); (Demo.request, 125)] ∅).2))) |}.
Proof.
  apply (hourly_usage_is_two_minutes (H:=Demo.starlette_str) (J:=Middleware.unbound_json)
           Demo.app
           [(Demo.request, 70); (Demo.request, 125)] "key-1" 130 ∅).
  reflexivity.
Defined.

(** ** More on [get_raw_data]: the cache, failures, the access log *)
Section data_access_more.
Import Token DataAccess Routes.
Context `{StrHTTPException}.

(** What [get_raw_data] does for a wallet that has raw-data access. *)
Lemma get_raw_data_granted self now wallet_address data_type params w info :
  check_access_level (cynix_token self) wallet_address = AccessOk info →
  5000 ≤ staked_amount info →
  get_raw_data self now wallet_address data_type params w =
  match Redis.get now (_generate_cache_key self data_type params) (cache w) with
  | Some cached_data => (cached_data, w)
  | None =>
    match _fetch_raw_data self data_type params w with
    | (Raise e, w) => (error_dict (exc_str e), w)
    | (Ok data, w) =>
      (data,
       _log_data_access now wallet_address data_type params
         {| cache := Redis.setex now (_generate_cache_key self data_type params)
                       cache_ttl data (cache w);
            lists := lists w; fetched := fetched w |})
    end
  end.
Proof.
  intros Hcheck Hstake. unfold get_raw_data. rewrite Hcheck.
  pose proof (check_access_level_levels _ _ _ Hcheck) as ->. cbn [raw_data_access levels].
  by assert ((staked_amount info >=? 5000) = true) as -> by (apply Z.geb_le; lia).
Qed.

Lemma fetch_raw_data_store self data_type params w outcome w1 :
  _fetch_raw_data self data_type params w = (outcome, w1) →
  cache w1 = cache w ∧ lists w1 = lists w.
Proof.
  unfold _fetch_raw_data, call_fetcher. intros Hfetch.
  destruct (_fetch_github_data _); [|by simplify_eq].
  destruct (_fetch_twitter_data _); [|by simplify_eq].
  destruct (_fetch_blockchain_data _); [|by simplify_eq].
  repeat (destruct (decide _) in Hfetch); by simplify_eq.
Qed.

(** With the three fetchers in place, any other data type is refused. *)
Lemma fetch_raw_data_unsupported self data_type params w github twitter blockchain :
  _fetch_github_data (externals self) = Ok github →
  _fetch_twitter_data (externals self) = Ok twitter →
  _fetch_blockchain_data (externals self) = Ok blockchain →
  data_type ∉ ["github"; "twitter"; "blockchain"] →
  _fetch_raw_data self data_type params w
    = (Raise (PyError ValueError ("Unsupported data type: " +:+ data_type)), w).
Proof.
  intros Hgithub Htwitter Hblockchain Hnot. unfold _fetch_raw_data.
  rewrite Hgithub, Htwitter, Hblockchain.
  repeat (destruct (decide _) as [->|]; [exfalso; apply Hnot; set_solver|]). done.
Qed.

(** Without the first fetcher nothing is fetched, whatever the data type. *)
Lemma fetch_raw_data_no_fetcher self data_type params w e :
  _fetch_github_data (externals self) = Raise e →
  _fetch_raw_data self data_type params w = (Raise e, w).
Proof. intros Hgithub. unfold _fetch_raw_data. by rewrite Hgithub. Qed.

(** A fetcher answers by its argument alone. *)
Lemma fetch_raw_data_again self data_type params w data w1 w2 :
  _fetch_raw_data self data_type params w = (Ok data, w1) →
  _fetch_raw_data self data_type params w2 =
    (Ok data, {| cache := cache w2; lists := lists w2;
                 fetched := fetched w2 ++ [(data_type, default ∅ params)] |}).
Proof.
  unfold _fetch_raw_data, call_fetcher. intros Hfetch.
  destruct (_fetch_github_data _); [|done].
  destruct (_fetch_twitter_data _); [|done].
  destruct (_fetch_blockchain_data _); [|done].
  repeat (destruct (decide _) in Hfetch |- *);
    first [by simplify_eq | injection Hfetch as Hdata _; by rewrite Hdata].
Qed.

(** After a fresh fetch at [t0], a request at [t] that leads to the same
    cache key is answered from the cache up to and at [t0 + 300]. *)
Lemma get_raw_data_after_fresh self t0 t wallet_a wallet_b data_type params data_type' params'
    w info_a info_b data w1 :
  check_access_level (cynix_token self) wallet_a = AccessOk info_a →
  5000 ≤ staked_amount info_a →
  check_access_level (cynix_token self) wallet_b = AccessOk info_b →
  5000 ≤ staked_amount info_b →
  Redis.get t0 (_generate_cache_key self data_type params) (cache w) = None →
  _fetch_raw_data self data_type params w = (Ok data, w1) →
  _generate_cache_key self data_type' params' = _generate_cache_key self data_type params →
  t ≤ t0 + 300 →
  get_raw_data self t wallet_b data_type' params'
    (get_raw_data self t0 wallet_a data_type params w).2
  = (data, (get_raw_data self t0 wallet_a data_type params w).2).
Proof.
  intros Hcheck_a Hstake_a Hcheck_b Hstake_b Hmiss Hfetch Hkey Hlive.
  destruct (get_raw_data_fresh self t0 wallet_a data_type params w info_a data w1)
    as (_ & Hcache & _); [done..|].
  apply (get_raw_data_cache_hit _ _ _ _ _ _ info_b); [done..|].
  rewrite Hkey. unfold Redis.get. rewrite Hcache. cbn [Redis.live].
  by assert ((t <=? t0 + 300) = true) as -> by by apply Z.leb_le.
Qed.

(** X16. A fetched payload is shared by all wallets with raw-data access and
    lives for 300 seconds: a request for the same data type and parameters
    at time [t], by whatever wallet, is answered from the cache, with no
    fetch and no log entry, if [t <= t0 + 300] (the entry is still served at
    the instant of its expiry), and makes the fetcher run a second time
    after that. *)
Theorem cached_payload_lifetime self t0 t wallet_a wallet_b data_type params
    w info_a info_b data w1 :
  check_access_level (cynix_token self) wallet_a = AccessOk info_a →
  5000 ≤ staked_amount info_a →
  check_access_level (cynix_token self) wallet_b = AccessOk info_b →
  5000 ≤ staked_amount info_b →
  Redis.get t0 (_generate_cache_key self data_type params) (cache w) = None →
  _fetch_raw_data self data_type params w = (Ok data, w1) →
  let w' := (get_raw_data self t0 wallet_a data_type params w).2 in
  if decide (t ≤ t0 + 300) then
    get_raw_data self t wallet_b data_type params w' = (data, w')
  else
    fetched (get_raw_data self t wallet_b data_type params w').2
    = fetched w ++ [(data_type, default ∅ params); (data_type, default ∅ params)].
Proof.
  intros Hcheck_a Hstake_a Hcheck_b Hstake_b Hmiss Hfetch w'.
  destruct (decide (t ≤ t0 + 300)) as [Hlive|Hdead].
  - by apply (get_raw_data_after_fresh _ _ _ _ _ _ _ _ _ _ info_a info_b data w1).
  - destruct (get_raw_data_fresh self t0 wallet_a data_type params w info_a data w1)
      as (_ & Hcache & Hfetched & _); [done..|].
    fold w' in Hcache, Hfetched.
    rewrite (get_raw_data_granted _ _ _ _ _ _ info_b) by done.
    unfold Redis.get. rewrite Hcache. cbn [Redis.live].
    assert ((t <=? t0 + 300) = false) as -> by (apply Z.leb_gt; lia).
    rewrite (fetch_raw_data_again _ _ _ _ _ _ w' Hfetch).
    cbn [snd _log_data_access fetched]. rewrite Hfetched. by rewrite <- app_assoc.
Qed.

(** X17. The cache key joins the data type and the serialised parameters
    with a colon and nothing keeps a data type from holding one: while the
    payload fetched for [(data_type, params)] is cached, a request for the
    data type ["<data_type>:<json of params>"] without parameters, which no
    fetcher supports, is answered with that payload. *)
Theorem cache_key_collision self t0 t wallet_a wallet_b data_type params
    w info_a info_b data w1 :
  params ≠ ∅ →
  check_access_level (cynix_token self) wallet_a = AccessOk info_a →
  5000 ≤ staked_amount info_a →
  check_access_level (cynix_token self) wallet_b = AccessOk info_b →
  5000 ≤ staked_amount info_b →
  Redis.get t0 (_generate_cache_key self data_type (Some params)) (cache w) = None →
  _fetch_raw_data self data_type (Some params) w = (Ok data, w1) →
  t < t0 + 300 →
  let w' := (get_raw_data self t0 wallet_a data_type (Some params) w).2 in
  get_raw_data self t wallet_b
    (data_type +:+ ":" +:+ json_dumps_sort_keys (externals self) params) None w'
  = (data, w').
Proof.
  intros Hparams Hcheck_a Hstake_a Hcheck_b Hstake_b Hmiss Hfetch Hlive w'.
  apply (get_raw_data_after_fresh _ _ _ _ _ _ _ _ _ _ info_a info_b data w1); [done..| |lia].
  unfold _generate_cache_key, truthy. by rewrite bool_decide_false.
Qed.

(** X18. The service as the repository has it fetches nothing: the class
    defines none of the three fetchers, so for a wallet with raw-data
    access and on a cache miss [get_raw_data] answers every data type,
    supported or not, with the text of the [AttributeError] for
    [_fetch_github_data], raised while the dictionary of fetchers is built
    and before the data type is looked at; nothing is cached or logged, and
    the route answers 500. *)
Theorem shipped_service_fetches_nothing dumps token now wallet_address data_type params w info :
  let self := {| externals := shipped dumps; cynix_token := token |} in
  check_access_level token wallet_address = AccessOk info →
  5000 ≤ staked_amount info →
  Redis.get now (_generate_cache_key self data_type params) (cache w) = None →
  get_raw_data self now wallet_address data_type params w
    = (error_dict "'DataAccessService' object has no attribute '_fetch_github_data'", w) ∧
  get_data self now data_type wallet_address params w
    = (Raise (HTTPException 500 (JStr (str_http_exception 403
         (JStr "'DataAccessService' object has no attribute '_fetch_github_data'")))), w).
Proof.
  intros self Hcheck Hstake Hmiss.
  assert (get_raw_data self now wallet_address data_type params w
          = (error_dict "'DataAccessService' object has no attribute '_fetch_github_data'",
             w)) as Hraw.
  { rewrite (get_raw_data_granted _ _ _ _ _ _ info) by done. rewrite Hmiss.
    by rewrite (fetch_raw_data_no_fetcher _ _ _ _ (attribute_error "_fetch_github_data")). }
  split; [done|]. unfold get_data. by rewrite Hraw.
Qed.

(** X29. On an object that has the three fetchers, a data type other than
    the three supported ones is answered, to a wallet with raw-data access
    and on a cache miss, with the error
    ["Unsupported data type: <data_type>"]; nothing is fetched, cached or
    logged, and the route turns the answer into a 500. *)
Theorem unsupported_data_type_answer self now wallet_address data_type params w info
    github twitter blockchain :
  _fetch_github_data (externals self) = Ok github →
  _fetch_twitter_data (externals self) = Ok twitter →
  _fetch_blockchain_data (externals self) = Ok blockchain →
  check_access_level (cynix_token self) wallet_address = AccessOk info →
  5000 ≤ staked_amount info →
  data_type ∉ ["github"; "twitter"; "blockchain"] →
  Redis.get now (_generate_cache_key self data_type params) (cache w) = None →
  get_raw_data self now wallet_address data_type params w
    = (error_dict ("Unsupported data type: " +:+ data_type), w) ∧
  get_data self now data_type wallet_address params w
    = (Raise (HTTPException 500 (JStr (str_http_exception 403
         (JStr ("Unsupported data type: " +:+ data_type))))), w).
Proof.
  intros Hgithub Htwitter Hblockchain Hcheck Hstake Hnot Hmiss.
  assert (get_raw_data self now wallet_address data_type params w
          = (error_dict ("Unsupported data type: " +:+ data_type), w)) as Hraw.
  { rewrite (get_raw_data_granted _ _ _ _ _ _ info) by done.
    by rewrite Hmiss, (fetch_raw_data_unsupported _ _ _ _ github twitter blockchain). }
  split; [done|]. unfold get_data. by rewrite Hraw.
Qed.

(** X19. When the fetcher raises, the caller gets [{"error": str(e)}] and
    the failure leaves no trace: nothing is cached, so the next request
    fetches again, and nothing is written to the access log. *)
Theorem failed_fetch_not_cached self now wallet_address data_type params w info e w1 :
  check_access_level (cynix_token self) wallet_address = AccessOk info →
  5000 ≤ staked_amount info →
  Redis.get now (_generate_cache_key self data_type params) (cache w) = None →
  _fetch_raw_data self data_type params w = (Raise e, w1) →
  let '(result, w') := get_raw_data self now wallet_address data_type params w in
  result = error_dict (exc_str e) ∧
  cache w' = cache w ∧
  access_log w' = access_log w ∧
  Redis.get now (_generate_cache_key self data_type params) (cache w') = None.
Proof.
  intros Hcheck Hstake Hmiss Hfetch.
  rewrite (get_raw_data_granted _ _ _ _ _ _ info) by done. rewrite Hmiss, Hfetch.
  destruct (fetch_raw_data_store _ _ _ _ _ _ Hfetch) as [Hcache Hlists].
  unfold access_log. by rewrite Hcache, Hlists.
Qed.

(** X20. When the access check itself fails (an address that is no public
    key, an RPC error, a token amount that is no number), its error message
    is lost: [get_raw_data] answers [{"error": "'access_levels'"}], the
    text of the [KeyError] it runs into, touches nothing, and the route
    answers 500. *)
Theorem access_check_failure_answer self now wallet_address data_type params w msg :
  check_access_level (cynix_token self) wallet_address = AccessError msg →
  get_raw_data self now wallet_address data_type params w
    = (error_dict "'access_levels'", w) ∧
  get_data self now data_type wallet_address params w
    = (Raise (HTTPException 500 (JStr (str_http_exception 403 (JStr "'access_levels'")))), w).
Proof.
  intros Hcheck.
  assert (get_raw_data self now wallet_address data_type params w
          = (error_dict "'access_levels'", w)) as Hraw.
  { unfold get_raw_data. by rewrite Hcheck. }
  split; [done|]. unfold get_data. by rewrite Hraw.
Qed.

(** X21. [get_raw_data] keeps the access log within 10000 entries. *)
Theorem access_log_bounded self now wallet_address data_type params w :
  Z.of_nat (length (access_log w)) ≤ 10000 →
  Z.of_nat (length (access_log
    (get_raw_data self now wallet_address data_type params w).2)) ≤ 10000.
Proof.
  intros Hbound. unfold get_raw_data.
  destruct (check_access_level _ _) as [info|msg]; [|done].
  destruct (negb _); [done|].
  destruct (Redis.get _ _ _); [done|].
  destruct (_fetch_raw_data self data_type params w) as [[data|e] w1] eqn:Hfetch;
    destruct (fetch_raw_data_store _ _ _ _ _ _ Hfetch) as [Hcache Hlists]; cbn [snd].
  - rewrite access_log_logged, length_take. lia.
  - unfold access_log. by rewrite Hlists.
Qed.

(** X22. The width of the buckets follows from the time frame alone: the
    data points of the last 24 hours are aggregated by the hour, those of
    the last 7 days by the day, those of the last 30 days by the week. *)
Theorem analytics_bucket_width self now wallet_address metric timeframe range interval w :
  (timeframe, range, interval)
    ∈ [("24h", 86400, 3600); ("7d", 604800, 86400); ("30d", 2592000, 604800)] →
  get_analytics_data self now wallet_address metric timeframe w =
  match _get_metric_data_points (externals self) w metric (now - range) now with
  | Raise e => error_dict (exc_str e)
  | Ok data_points =>
    match _aggregate_by_interval (externals self) data_points (now - range) now interval with
    | Raise e => error_dict (exc_str e)
    | Ok aggregated_data =>
      {[ "metric" := JStr metric; "timeframe" := JStr timeframe;
         "data" := JList aggregated_data ]}
    end
  end.
Proof.
  intros Hframe. rewrite !elem_of_cons in Hframe.
  assert (time_ranges !! timeframe = Some range ∧
          (if decide (range ≤ days 1) then hours 1
           else if decide (range ≤ days 7) then days 1 else days 7) = interval)
    as [Hrange Hinterval].
  { destruct Hframe as [?|[?|[?|Hnil]]]; [by simplify_eq..|by apply elem_of_nil in Hnil]. }
  unfold get_analytics_data, _aggregate_metric. rewrite Hrange.
  destruct (_get_metric_data_points _ _ _ _ _); [|done].
  replace (now - (now - range)) with range by lia. by rewrite Hinterval.
Qed.
End data_access_more.

(** ** The routes: statuses *)
Section routes_more.
Import Token DataAccess Routes.
Context `{StrHTTPException}.

(** X23. [get_data] answers 200 or 500 and nothing else: 500 exactly when
    the dictionary [get_raw_data] returned holds the key ["error"] (be it
    an error of the service or a fetched payload with such a key), 200
    with that dictionary otherwise; the 403 it raises never leaves it. *)
Theorem get_data_status self now data_type wallet_address params w :
  let result := (get_raw_data self now wallet_address data_type params w).1 in
  let outcome := (get_data self now data_type wallet_address params w).1 in
  match result !! "error" with
  | Some detail =>
    outcome = Raise (HTTPException 500 (JStr (str_http_exception 403 detail)))
    ∧ http_status outcome = 500
  | None => outcome = Ok result ∧ http_status outcome = 200
  end.
Proof.
  intros result outcome. unfold outcome, result, get_data.
  destruct (get_raw_data self now wallet_address data_type params w) as [dict w']. cbn [fst].
  by destruct (dict !! "error").
Qed.

(** X24. A webhook without the [X-Cynix-Event] header, or with an empty
    one, is answered 500, not 400: the 400 raised for it is caught by the
    handler's own [except Exception]. *)
Theorem webhook_missing_event_header handlers payload request :
  Middleware.request_headers request !! "X-Cynix-Event" = None
  ∨ Middleware.request_headers request !! "X-Cynix-Event" = Some "" →
  webhook_handler handlers (Ok payload) request
  = Raise (HTTPException 500
             (JStr (str_http_exception 400 (JStr "Missing event type header")))).
Proof.
  intros [Hheader|Hheader]; unfold webhook_handler; by rewrite Hheader.
Qed.

(** X25. The webhook endpoint as the repository has it answers every
    request with 500: a body that does not parse and a missing event type
    end in the handler's [except Exception], and for every event type,
    [new_alpha], [new_meme] and [price_alert] included, [process_webhook]
    raises [NameError] for [handle_alpha_webhook], the first of the three
    functions its dictionary names and the module does not bind. *)
Theorem shipped_webhook_answers_500 request_json request :
  http_status (webhook_handler shipped_handlers request_json request) = 500 ∧
  ∀ payload event_type,
    request_json = Ok payload →
    Middleware.request_headers request !! "X-Cynix-Event" = Some event_type →
    event_type ≠ "" →
    webhook_handler shipped_handlers request_json request
    = Raise (HTTPException 500 (JStr "name 'handle_alpha_webhook' is not defined")).
Proof.
  split.
  - unfold webhook_handler. destruct request_json as [payload|e]; [|done].
    destruct (Middleware.request_headers request !! "X-Cynix-Event") as [event_type|];
      [|done].
    by destruct (decide (event_type = "")).
  - intros payload event_type -> Hheader Hevent. unfold webhook_handler.
    rewrite Hheader. by destruct (decide (event_type = "")).
Qed.

(** X30. With the three handlers bound, a webhook whose body parses and
    whose event type is one of the three is handed, with its payload, to
    the handler of that event type and to no other: the answer is 200 with
    the event type and that handler's result, or 500 with the text of what
    the handler raised; any other event type is answered 500,
    ["Unsupported event type: <event_type>"]. *)
Theorem webhook_dispatch handlers alpha meme price payload request event_type :
  handle_alpha_webhook handlers = Ok alpha →
  handle_meme_webhook handlers = Ok meme →
  handle_price_webhook handlers = Ok price →
  Middleware.request_headers request !! "X-Cynix-Event" = Some event_type →
  event_type ≠ "" →
  webhook_handler handlers (Ok payload) request =
  match
    (if decide (event_type = "new_alpha") then Some alpha
     else if decide (event_type = "new_meme") then Some meme
     else if decide (event_type = "price_alert") then Some price
     else None)
  with
  | Some handler =>
    match handler payload with
    | Ok result =>
      Ok {| webhook_status := "processed";
            webhook_event_type := event_type;
            webhook_result := result |}
    | Raise e => Raise (HTTPException 500 (JStr (exc_str e)))
    end
  | None =>
    Raise (HTTPException 500 (JStr ("Unsupported event type: " +:+ event_type)))
  end.
Proof.
  intros Halpha Hmeme Hprice Hheader Hevent. unfold webhook_handler, process_webhook.
  rewrite Hheader, Halpha, Hmeme, Hprice.
  destruct (decide (event_type = "")); [done|].
  repeat (destruct (decide (event_type = _));
          [match goal with |- context [?handler payload] => by destruct (handler payload) end|]).
  done.
Qed.

(** X26. An analysis that fails is answered 200: with the agent built, set
    up and torn down without error, the endpoint returns the envelope of
    [process_data], whose status is ["error"] and whose [error] is the text
    of the exception when [_process_internal] raised, and ["success"] with
    the result otherwise. *)
Theorem analyze_failure_is_200 agent initialize cleanup loop_time data :
  initialize agent = Ok () →
  cleanup agent = Ok () →
  ∃ envelope,
    analyze (Ok agent) initialize cleanup loop_time data = Ok envelope ∧
    Agents.agent_type envelope = Agents.class_name agent ∧
    match Agents._process_internal agent data with
    | Ok result =>
      Agents.status envelope = "success" ∧ Agents.data envelope = Some result
      ∧ Agents.error envelope = None
    | Raise e =>
      Agents.status envelope = "error" ∧ Agents.data envelope = None
      ∧ Agents.error envelope = Some (exc_str e)
    end.
Proof.
  intros Hinit Hcleanup. unfold analyze. rewrite Hinit, Hcleanup. cbn [try_except_500].
  eexists. split; [done|]. unfold Agents.process_data.
  by destruct (Agents._process_internal agent data).
Qed.
End routes_more.

(** ** The Telegram bot *)
Section telegram.
Import Token Telegram.
Context `{StrHTTPException}.

(** X27. [/verify <wallet>] for a wallet whose access check succeeds: below
    1000 tokens the reply reports the total the check computed (balances
    plus stake); from 1000 tokens on no reply is sent at all, because
    building the invite raises [NameError] ([time] is not imported), which
    the handler's [except (IndexError, ValueError)] does not take. *)
Theorem verify_command_outcome self wallet_address rest user_id info :
  check_access_level (cynix_token self) wallet_address = AccessOk info →
  _verify_command self (wallet_address :: rest) user_id =
  if decide (1000 ≤ total_tokens info) then Raise (name_error "time")
  else Ok ("❌ Insufficient CYNIX tokens. You need 1000 tokens for premium access.
Current balance: " +:+ pretty (total_tokens info)).
Proof.
  intros Hcheck. unfold _verify_command. rewrite Hcheck.
  pose proof (check_access_level_levels _ _ _ Hcheck) as ->. cbn [alpha_access levels].
  destruct (decide (1000 ≤ total_tokens info)) as [Hge|Hlt].
  - by assert ((total_tokens info >=? 1000) = true) as -> by (apply Z.geb_le; lia).
  - assert ((total_tokens info >=? 1000) = false) as ->; [|done].
    rewrite Z.geb_leb. apply Z.leb_gt. lia.
Qed.

(** X28. The regular channel gets an alert only after the premium channel
    has got it, 900 seconds later, and never the detailed analysis: the
    text sent there is the same whatever [data] is. *)
Theorem regular_alert_follows_premium self now message data :
  let premium :=
    {| sent_at := now; sent_chat := alpha_channel_id self;
       sent_text := _format_alpha_message self message data true |} in
  send_alpha_alert self now message data = []
  ∨ send_alpha_alert self now message data = [premium]
  ∨ ∃ chat_id,
      regular_channel_id self = Ok chat_id ∧
      send_alpha_alert self now message data =
      [premium;
       {| sent_at := now + 900; sent_chat := chat_id;
          sent_text := _format_alpha_message self message None false |}].
Proof.
  intros premium. unfold send_alpha_alert.
  destruct (send_message self (alpha_channel_id self) _); [|by left].
  destruct (regular_channel_id self) as [chat_id|]; [|by right; left].
  destruct (send_message self chat_id _); [|by right; left].
  right; right. exists chat_id. split; [done|].
  unfold _format_alpha_message. by rewrite andb_false_r.
Qed.
End telegram.

Lemma cached_payload_lifetime_witness :
  DataAccess.get_raw_data (H:=Demo.starlette_str) (Demo.service Demo.high_stake) 10
    "wallet-b" "github" None
    (DataAccess.get_raw_data (H:=Demo.starlette_str) (Demo.service Demo.high_stake) 0
       "wallet-a" "github" None Demo.empty_world).2
  = (Demo.github_payload,
     (DataAccess.get_raw_data (H:=Demo.starlette_str) (Demo.service Demo.high_stake) 0
        "wallet-a" "github" None Demo.empty_world).2).
Proof.
  apply (cached_payload_lifetime (H:=Demo.starlette_str) (Demo.service Demo.high_stake) 0 10
           "wallet-a" "wallet-b" "github" None Demo.empty_world
           Demo.high_stake_info Demo.high_stake_info Demo.github_payload
           {| DataAccess.cache := ∅; DataAccess.lists := ∅;
              DataAccess.fetched := [("github", ∅)] |}).
  - reflexivity.
  - vm_compute. discriminate.
  - reflexivity.
  - vm_compute. discriminate.
  - reflexivity.
  - reflexivity.
Defined.

Lemma cache_key_collision_witness :
  DataAccess.get_raw_data (H:=Demo.starlette_str) (Demo.service Demo.high_stake) 10
    "wallet-b"
    ("github" +:+ ":" +:+
       DataAccess.json_dumps_sort_keys
         (DataAccess.externals (Demo.service Demo.high_stake)) Demo.repo_params)
    None
    (DataAccess.get_raw_data (H:=Demo.starlette_str) (Demo.service Demo.high_stake) 0
       "wallet-a" "github" (Some Demo.repo_params) Demo.empty_world).2
  = (Demo.github_payload,
     (DataAccess.get_raw_data (H:=Demo.starlette_str) (Demo.service Demo.high_stake) 0
        "wallet-a" "github" (Some Demo.repo_params) Demo.empty_world).2).
Proof.
  apply (cache_key_collision (H:=Demo.starlette_str) (Demo.service Demo.high_stake) 0 10
           "wallet-a" "wallet-b" "github" Demo.repo_params Demo.empty_world
           Demo.high_stake_info Demo.high_stake_info Demo.github_payload
           {| DataAccess.cache := ∅; DataAccess.lists := ∅;
              DataAccess.fetched := [("github", Demo.repo_params)] |}).
  - apply map_non_empty_singleton.
  - reflexivity.
  - vm_compute. discriminate.
  - reflexivity.
  - vm_compute. discriminate.
  - reflexivity.
  - reflexivity.
  - reflexivity.
Defined.

Lemma shipped_service_fetches_nothing_witness :
  DataAccess.get_raw_data (H:=Demo.starlette_str) (Demo.shipped_service Demo.high_stake) 0
    "wallet" "github" None Demo.empty_world
    = (error_dict "'DataAccessService' object has no attribute '_fetch_github_data'",
       Demo.empty_world) ∧
  Routes.get_data (H:=Demo.starlette_str) (Demo.shipped_service Demo.high_stake) 0
    "github" "wallet" None Demo.empty_world
    = (Raise (HTTPException 500 (JStr (Demo.starlette_str 403
         (JStr "'DataAccessService' object has no attribute '_fetch_github_data'")))),
       Demo.empty_world).
Proof.
  apply (shipped_service_fetches_nothing (H:=Demo.starlette_str) (λ _, "{}") Demo.high_stake 0
           "wallet" "github" None Demo.empty_world Demo.high_stake_info).
  - reflexivity.
  - vm_compute. discriminate.
  - reflexivity.
Defined.

Lemma unsupported_data_type_answer_witness :
  DataAccess.get_raw_data (H:=Demo.starlette_str) (Demo.service Demo.high_stake) 0
    "wallet" "reddit" None Demo.empty_world
    = (error_dict ("Unsupported data type: " +:+ "reddit"), Demo.empty_world) ∧
  Routes.get_data (H:=Demo.starlette_str) (Demo.service Demo.high_stake) 0
    "reddit" "wallet" None Demo.empty_world
    = (Raise (HTTPException 500 (JStr (Demo.starlette_str 403
         (JStr ("Unsupported data type: " +:+ "reddit"))))), Demo.empty_world).
Proof.
  apply (unsupported_data_type_answer (H:=Demo.starlette_str) (Demo.service Demo.high_stake) 0
           "wallet" "reddit" None Demo.empty_world Demo.high_stake_info
           (λ _, Ok Demo.github_payload) (λ _, Ok ∅) (λ _, Ok ∅)).
  - reflexivity.
  - reflexivity.
  - reflexivity.
  - reflexivity.
  - vm_compute. discriminate.
  - rewrite !elem_of_cons, elem_of_nil. intros [?|[?|[?|[]]]]; discriminate.
  - reflexivity.
Defined.

Lemma failed_fetch_not_cached_witness :
  let '(result, w') :=
    DataAccess.get_raw_data (H:=Demo.starlette_str) (Demo.service Demo.high_stake) 0
      "wallet" "reddit" None Demo.empty_world in
  result = error_dict (exc_str (H:=Demo.starlette_str)
             (PyError ValueError "Unsupported data type: reddit")) ∧
  DataAccess.cache w' = DataAccess.cache Demo.empty_world ∧
  DataAccess.access_log w' = DataAccess.access_log Demo.empty_world ∧
  Redis.get 0 (DataAccess._generate_cache_key (Demo.service Demo.high_stake) "reddit" None)
    (DataAccess.cache w') = None.
Proof.
  apply (failed_fetch_not_cached (H:=Demo.starlette_str) (Demo.service Demo.high_stake) 0
           "wallet" "reddit" None Demo.empty_world Demo.high_stake_info
           (PyError ValueError "Unsupported data type: reddit") Demo.empty_world).
  - reflexivity.
  - vm_compute. discriminate.
  - reflexivity.
  - reflexivity.
Defined.

Lemma access_check_failure_answer_witness :
  DataAccess.get_raw_data (H:=Demo.starlette_str) (Demo.service Demo.broken_account) 0
    "wallet" "github" None Demo.empty_world
    = (error_dict "'access_levels'", Demo.empty_world) ∧
  Routes.get_data (H:=Demo.starlette_str) (Demo.service Demo.broken_account) 0
    "github" "wallet" None Demo.empty_world
    = (Raise (HTTPException 500 (JStr (Demo.starlette_str 403 (JStr "'access_levels'")))),
       Demo.empty_world).
Proof.
  apply (access_check_failure_answer (H:=Demo.starlette_str)
           (Demo.service Demo.broken_account) 0 "wallet" "github" None Demo.empty_world
           "invalid literal for int()").
  reflexivity.
Defined.

Lemma access_log_bounded_witness :
  Z.of_nat (length (DataAccess.access_log
    (DataAccess.get_raw_data (H:=Demo.starlette_str) (Demo.service Demo.high_stake) 0
       "wallet" "github" None Demo.empty_world).2)) ≤ 10000.
Proof.
  apply (access_log_bounded (H:=Demo.starlette_str) (Demo.service Demo.high_stake) 0
           "wallet" "github" None Demo.empty_world).
  vm_compute. discriminate.
Defined.

Lemma analytics_bucket_width_witness :
  DataAccess.get_analytics_data (H:=Demo.starlette_str) (Demo.service Demo.empty_wallet)
    1000000 "wallet" "stars" "7d" Demo.empty_world =
  match DataAccess._get_metric_data_points
          (DataAccess.externals (Demo.service Demo.empty_wallet)) Demo.empty_world "stars"
          (1000000 - 604800) 1000000 with
  | Raise e => error_dict (exc_str (H:=Demo.starlette_str) e)
  | Ok data_points =>
    match DataAccess._aggregate_by_interval
            (DataAccess.externals (Demo.service Demo.empty_wallet)) data_points
            (1000000 - 604800) 1000000 86400 with
    | Raise e => error_dict (exc_str (H:=Demo.starlette_str) e)
    | Ok aggregated_data =>
      {[ "metric" := JStr "stars"; "timeframe" := JStr "7d";
         "data" := JList aggregated_data ]}
    end
  end.
Proof.
  apply (analytics_bucket_width (H:=Demo.starlette_str) (Demo.service Demo.empty_wallet)
           1000000 "wallet" "stars" "7d" 604800 86400 Demo.empty_world).
  rewrite !elem_of_cons. right. left. reflexivity.
Defined.

Lemma webhook_missing_event_header_witness :
  Routes.webhook_handler (H:=Demo.starlette_str) Demo.webhook_handlers (Ok JNull) Demo.request
  = Raise (HTTPException 500
             (JStr (Demo.starlette_str 400 (JStr "Missing event type header")))).
Proof.
  apply (webhook_missing_event_header (H:=Demo.starlette_str) Demo.webhook_handlers JNull
           Demo.request).
  left. reflexivity.
Defined.

Lemma webhook_dispatch_witness :
  Routes.webhook_handler (H:=Demo.starlette_str) Demo.webhook_handlers (Ok JNull)
    Demo.webhook_request
  = Ok {| Routes.webhook_status := "processed";
          Routes.webhook_event_type := "new_meme";
          Routes.webhook_result := ∅ |}.
Proof.
  apply (webhook_dispatch (H:=Demo.starlette_str) Demo.webhook_handlers
           (λ _, Ok ∅) (λ _, Ok ∅) (λ _, Ok ∅) JNull Demo.webhook_request "new_meme").
  - reflexivity.
  - reflexivity.
  - reflexivity.
  - reflexivity.
  - discriminate.
Defined.

Lemma analyze_failure_is_200_witness :
  ∃ envelope,
    Routes.analyze (H:=Demo.starlette_str) (Ok Demo.failing_agent) (λ _, Ok ()) (λ _, Ok ())
      7 ∅ = Ok envelope ∧
    Agents.agent_type envelope = Agents.class_name Demo.failing_agent ∧
    match Agents._process_internal Demo.failing_agent ∅ with
    | Ok result =>
      Agents.status envelope = "success" ∧ Agents.data envelope = Some result
      ∧ Agents.error envelope = None
    | Raise e =>
      Agents.status envelope = "error" ∧ Agents.data envelope = None
      ∧ Agents.error envelope = Some (exc_str (H:=Demo.starlette_str) e)
    end.
Proof.
  apply (analyze_failure_is_200 (H:=Demo.starlette_str) Demo.failing_agent
           (λ _, Ok ()) (λ _, Ok ()) 7 ∅); reflexivity.
Defined.

Lemma verify_command_outcome_witness :
  Telegram._verify_command (H:=Demo.starlette_str) (Demo.bot Demo.small_holder)
    ["wallet"] 42
  = if decide (1000 ≤ Token.total_tokens Demo.small_holder_info)
    then Raise (name_error "time")
    else Ok ("❌ Insufficient CYNIX tokens. You need 1000 tokens for premium access.
Current balance: " +:+ pretty (Token.total_tokens Demo.small_holder_info)).
Proof.
  apply (verify_command_outcome (H:=Demo.starlette_str) (Demo.bot Demo.small_holder)
           "wallet" [] 42 Demo.small_holder_info).
  reflexivity.
Defined.
